(** * CollectionUtils: a shallow embedding of [src/utilities/collection-utils.ts]

    The module is a flat table of functions over two interchangeable
    collection representations (a plain JavaScript array and an
    [Immutable.List]).  The embedding keeps the shape of the TypeScript:

    - a completion monad for code that may raise a [TypeError] (a member
      access on [undefined] or [null]);
    - the read-only predicates ([_length], [_isEmpty], [_isNotEmpty],
      [_hasValues], [_equalsBy]) over collection values;
    - the index helpers and the sort over a store of arrays, since their
      contract speaks about reference identity and in-place mutation. *)

From Stdlib Require Import ZArith String Ascii.
From stdpp Require Import base tactics option list sorting.

Local Open Scope Z_scope.

(* ------------------------------------------------------------------------ *)
(** ** Completions: normal results and thrown errors *)
(* ------------------------------------------------------------------------ *)

Inductive JsError : Type :=
| TypeError.

Inductive Completion (A : Type) : Type :=
| Normal (a : A)
| Throw (e : JsError).

Arguments Normal {A} a.
Arguments Throw {A} e.

#[global] Instance completion_ret : MRet Completion := fun _ a => Normal a.

#[global] Instance completion_bind : MBind Completion := fun _ _ k m =>
  match m with
  | Normal a => k a
  | Throw e => Throw e
  end.

Definition returns {A} (m : Completion A) : Prop := ∃ a, m = Normal a.

(* ------------------------------------------------------------------------ *)
(** ** Collections *)
(* ------------------------------------------------------------------------ *)

(** A value of type [Array<T> | Immutable.List<any> | undefined] as it can
    reach the functions at run time; arrays are dense. *)
Inductive Collection (T : Type) : Type :=
| Undefined
| Null
| PlainArray (elems : list T)
| ImmutableList (elems : list T).

Arguments Undefined {T}.
Arguments Null {T}.
Arguments PlainArray {T} elems.
Arguments ImmutableList {T} elems.

Section Collections.
Context {T : Type}.

(** [c == null] *)
Definition eq_null (c : Collection T) : bool :=
  match c with
  | Undefined | Null => true
  | PlainArray _ | ImmutableList _ => false
  end.

(** [c instanceof Immutable.List] *)
Definition instanceof_List (c : Collection T) : bool :=
  match c with
  | ImmutableList _ => true
  | _ => false
  end.

(** The elements a collection holds; none for [undefined] and [null]. *)
Definition elements (c : Collection T) : list T :=
  match c with
  | Undefined | Null => []
  | PlainArray l | ImmutableList l => l
  end.

(** [c.length]: a number on an array, [undefined] ([None]) on an
    [Immutable.List], a [TypeError] on [undefined] and [null]. *)
Definition get_length (c : Collection T) : Completion (option Z) :=
  match c with
  | Undefined | Null => Throw TypeError
  | PlainArray l => Normal (Some (Z.of_nat (length l)))
  | ImmutableList _ => Normal None
  end.

(** [c.size]: a number on an [Immutable.List], [undefined] on an array. *)
Definition get_size (c : Collection T) : Completion (option Z) :=
  match c with
  | Undefined | Null => Throw TypeError
  | PlainArray _ => Normal None
  | ImmutableList l => Normal (Some (Z.of_nat (length l)))
  end.

(** [a !== b] on numbers or [undefined]. *)
Definition strict_neq (a b : option Z) : bool :=
  match a, b with
  | Some x, Some y => negb (x =? y)
  | None, None => false
  | _, _ => true
  end.

(** The scan of [some]: stops at the first element the callback accepts. *)
Fixpoint some_elems (cb : T → Completion bool) (l : list T) : Completion bool :=
  match l with
  | [] => Normal false
  | x :: l' => b ← cb x; if b : bool then Normal true else some_elems cb l'
  end.

(** [c.some(cb)], on either representation. *)
Definition some (c : Collection T) (cb : T → Completion bool) : Completion bool :=
  match c with
  | Undefined | Null => Throw TypeError
  | PlainArray l | ImmutableList l => some_elems cb l
  end.

(** [arr.forEach(cb)] where the callback updates a captured variable of
    type [S]. *)
Fixpoint forEach {A S : Type} (cb : A → S → Completion S) (l : list A) (s : S)
  : Completion S :=
  match l with
  | [] => Normal s
  | x :: l' => s' ← cb x s; forEach cb l' s'
  end.

(* ---------------------------------------------------------------------- *)
(** ** The read-only operations *)
(* ---------------------------------------------------------------------- *)

Definition _length (arr : Collection T) : Completion (option Z) :=
  if eq_null arr then Normal (Some (-1))
  else if instanceof_List arr then get_size arr
  else get_length arr.

Definition _isEmpty (collections : list (Collection T)) : Completion bool :=
  let isEmpty := true in
  forEach (fun collection isEmpty =>
    if eq_null collection then Normal isEmpty
    else if instanceof_List collection then
      size ← get_size collection;
      if strict_neq size (Some 0) then Normal false else Normal isEmpty
    else
      len ← get_length collection;
      if strict_neq len (Some 0) then Normal false else Normal isEmpty)
    collections isEmpty.

Definition _isNotEmpty (collections : list (Collection T)) : Completion bool :=
  e ← _isEmpty collections; Normal (negb e).

Definition _hasValues (collections : list (Collection T)) : Completion bool :=
  let hasValues := false in
  forEach (fun collection hasValues =>
    e ← _isEmpty [collection];
    if negb e then Normal true else Normal hasValues)
    collections hasValues.

Section EqualsBy.
Context {V : Type}.
(** [===] on the values the selector produces. *)
Variable strict_equals : V → V → bool.
Variable selector : T → V.

Definition _equalsBy (array1 array2 : Collection T) : Completion bool :=
  if eq_null array1 then Normal (eq_null array2)
  else if eq_null array2 then Normal false
  else
    n1 ← _length array1;
    n2 ← _length array2;
    if strict_neq n1 n2 then Normal false
    else
      hasDifferingValues ←
        (l ← some array1 (fun s =>
               b ← some array2 (fun ss =>
                     Normal (strict_equals (selector s) (selector ss)));
               Normal (negb b));
         if l : bool then Normal true
         else some array2 (fun s =>
                b ← some array1 (fun ss =>
                      Normal (strict_equals (selector s) (selector ss)));
                Normal (negb b)));
      Normal (negb hasDifferingValues).
End EqualsBy.
End Collections.

(* ------------------------------------------------------------------------ *)
(** ** Arrays in a store *)
(* ------------------------------------------------------------------------ *)

(** An array is an object: a reference into a store that maps each
    allocated reference to the current elements of its array.  References
    are allocated in order, so the store is the list of the arrays
    allocated so far. *)
Definition Ref : Type := nat.

Definition Exec (T A : Type) : Type := list (list T) → Completion (A * list (list T)).

#[global] Instance exec_ret {T} : MRet (Exec T) := fun _ a h => Normal (a, h).

#[global] Instance exec_bind {T} : MBind (Exec T) := fun _ _ k m h =>
  match m h with
  | Normal (a, h') => k a h'
  | Throw e => Throw e
  end.

(** A string is its sequence of UTF-16 code units. *)
Abbreviation JsString := (list N).

Section Arrays.
Context {T : Type}.

(** Relative index of [slice] and [splice]: negative counts from the end,
    everything is clamped to [0 .. len]. *)
Definition relative_index (len i : Z) : Z :=
  if i <? 0 then Z.max (len + i) 0 else Z.min i len.

(** [l.slice(start, end)] on the elements; [end] may be omitted. *)
Definition slice_elems (l : list T) (start : Z) (end_ : option Z) : list T :=
  let len := Z.of_nat (length l) in
  let k := relative_index len start in
  let final := match end_ with
               | None => len
               | Some e => relative_index len e
               end in
  take (Z.to_nat (Z.max (final - k) 0)) (drop (Z.to_nat k) l).

(** [l.splice(start, deleteCount)]: the elements left, and those removed. *)
Definition splice_elems (l : list T) (start deleteCount : Z) : list T * list T :=
  let len := Z.of_nat (length l) in
  let actualStart := relative_index len start in
  let actualDeleteCount := Z.min (Z.max deleteCount 0) (len - actualStart) in
  (take (Z.to_nat actualStart) l
     ++ drop (Z.to_nat (actualStart + actualDeleteCount)) l,
   take (Z.to_nat actualDeleteCount) (drop (Z.to_nat actualStart) l)).

(** Reading through a reference that the store does not hold is rejected:
    such a reference denotes no array. *)
Definition arr_read (r : Ref) : Exec T (list T) := fun h =>
  match h !! r with
  | Some l => Normal (l, h)
  | None => Throw TypeError
  end.

(** [r.length] *)
Definition arr_length (r : Ref) : Exec T Z :=
  l ← arr_read r; mret (Z.of_nat (length l)).

(** An array literal: a fresh array holding [l]. *)
Definition arr_new (l : list T) : Exec T Ref := fun h =>
  Normal (length h, h ++ [l]).

(** [r.slice(start, end)]: a fresh array. *)
Definition arr_slice (r : Ref) (start : Z) (end_ : option Z) : Exec T Ref :=
  l ← arr_read r; arr_new (slice_elems l start end_).

(** [r.splice(start, deleteCount)]: updates [r] in place, returns a fresh
    array of the removed elements. *)
Definition arr_splice (r : Ref) (start deleteCount : Z) : Exec T Ref := fun h =>
  match h !! r with
  | Some l =>
      let '(kept, removed) := splice_elems l start deleteCount in
      arr_new removed (<[r := kept]> h)
  | None => Throw TypeError
  end.

(** Array.prototype.sort, driven by the sign of the comparator: a stable
    insertion.  Each element [x] in turn moves left past the elements [y]
    before it that it compares below ([comparefn x y < 0]) and stays
    behind the first one it does not. *)
Fixpoint sort_insert (comparefn : T → T → Z) (x : T) (rev_prefix : list T) : list T :=
  match rev_prefix with
  | [] => [x]
  | y :: rest =>
      if comparefn x y <? 0 then y :: sort_insert comparefn x rest
      else x :: y :: rest
  end.

Definition sort_elems (comparefn : T → T → Z) (l : list T) : list T :=
  rev (fold_left (fun rev_prefix x => sort_insert comparefn x rev_prefix) l []).

(** [r.sort(comparefn)]: sorts [r] in place and returns [r]. *)
Definition arr_sort (r : Ref) (comparefn : T → T → Z) : Exec T Ref := fun h =>
  match h !! r with
  | Some l => Normal (r, <[r := sort_elems comparefn l]> h)
  | None => Throw TypeError
  end.

(* ---------------------------------------------------------------------- *)
(** ** The index helpers *)
(* ---------------------------------------------------------------------- *)

Definition _removeElementAt (source : Ref) (index : Z) : Exec T Ref :=
  len ← arr_length source;
  if (index <? 0) || (index >? len) then mret source
  else
    elems ← arr_read source;
    newArr ← arr_new elems;
    _ ← arr_splice newArr index 1;
    mret newArr.

Definition _replaceElementAt (source : Ref) (index : Z) (value : T) : Exec T Ref :=
  len ← arr_length source;
  if (len =? 0) || (index <? 0) then mret source
  else
    len ← arr_length source;
    if len =? 1 then arr_new [value]
    else
      len ← arr_length source;
      if index =? len - 1 then
        before ← arr_slice source 0 (Some index);
        b ← arr_read before;
        arr_new (b ++ [value])
      else
        before ← arr_slice source 0 (Some index);
        b ← arr_read before;
        after ← arr_slice source (index + 1) None;
        a ← arr_read after;
        arr_new (b ++ [value] ++ a).

(* ---------------------------------------------------------------------- *)
(** ** sortByString *)
(* ---------------------------------------------------------------------- *)

(** The string of an ASCII literal. *)
Definition js (s : string) : JsString := N_of_ascii <$> list_ascii_of_string s.

(** The lower-case form of an ASCII code unit: [A]..[Z] go to [a]..[z]. *)
Definition lower_ascii (c : N) : N :=
  if N.leb 65 c && N.leb c 90 then (c + 32)%N else c.

(** [a === b] on strings: the same code units. *)
Fixpoint units_eqb (a b : JsString) : bool :=
  match a with
  | [] => match b with [] => true | _ :: _ => false end
  | x :: a' =>
      match b with
      | [] => false
      | y :: b' => N.eqb x y && units_eqb a' b'
      end
  end.

(** [a < b] on strings: the first code unit that differs decides, and a
    proper prefix is below the longer string. *)
Fixpoint units_ltb (a b : JsString) : bool :=
  match a with
  | [] => match b with [] => false | _ :: _ => true end
  | x :: a' =>
      match b with
      | [] => false
      | y :: b' =>
          if N.ltb x y then true
          else if N.eqb x y then units_ltb a' b'
          else false
      end
  end.

(** [s === "" || s == null], on a key that may be [undefined] ([None]). *)
Definition empty_or_null (s : option JsString) : bool :=
  match s with
  | None => true
  | Some s => units_eqb s []
  end.

(** [a === b] on keys. *)
Definition string_strict_eq (a b : option JsString) : bool :=
  match a, b with
  | Some x, Some y => units_eqb x y
  | None, None => true
  | _, _ => false
  end.

(** [a < b] on keys: strings compare code unit by code unit; the
    comparator reaches it with two strings only. *)
Definition string_lt (a b : option JsString) : bool :=
  match a, b with
  | Some x, Some y => units_ltb x y
  | _, _ => false
  end.

Section SortByString.
(** String.prototype.toLowerCase is a builtin of the language (a Unicode
    case mapping): it is a parameter here. *)
Variable toLowerCase : JsString → JsString.
(** The selector may return [undefined] or [null]: [None]. *)
Variable selector : T → option JsString.

Definition compareByString (caseSensitive : bool) (a b : T) : Z :=
  let aString := selector a in
  let bString := selector b in
  let aString := if negb caseSensitive then toLowerCase <$> aString else aString in
  let bString := if negb caseSensitive then toLowerCase <$> bString else bString in
  if empty_or_null aString then 1
  else if empty_or_null bString then -1
  else if string_strict_eq aString bString then 0
  else if string_lt aString bString then -1
  else 1.

(** The third parameter has the default [false]. *)
Definition _sortByString (array : Ref) (caseSensitive : option bool) : Exec T Ref :=
  let caseSensitive := default false caseSensitive in
  arr_sort array (compareByString caseSensitive).
End SortByString.
End Arrays.

(* ------------------------------------------------------------------------ *)
(** ** Vocabulary of the statements *)
(* ------------------------------------------------------------------------ *)

(** The element type of the sorting scenario: an object with a string
    field [n]. *)
Module Stub.
Record Named : Type := { n : JsString }.
(** [{n: s}] for an ASCII literal [s]. *)
Definition named (s : string) : Named := {| n := js s |}.
(** [x => x.n] *)
Definition by_n (x : Named) : option JsString := Some (n x).
End Stub.

(** A collection that is absent or holds no element. *)
Definition blank {T} (c : Collection T) : bool :=
  eq_null c || bool_decide (elements c = []).

(** [c'] is [c] with its elements rearranged. *)
Inductive permuted {T} : Collection T → Collection T → Prop :=
| permuted_undefined : permuted Undefined Undefined
| permuted_null : permuted Null Null
| permuted_array l l' : l ≡ₚ l' → permuted (PlainArray l) (PlainArray l')
| permuted_list l l' : l ≡ₚ l' → permuted (ImmutableList l) (ImmutableList l').

(** Every projected value of [l1] is [===] to a projected value of [l2]. *)
Definition contained {T V} (strict_equals : V → V → bool) (selector : T → V)
    (l1 l2 : list T) : Prop :=
  Forall (fun s => Exists (fun ss => strict_equals (selector s) (selector ss) = true) l2) l1.

(** The scan for an element of [l1] whose projected value has no match in
    [l2], as a plain boolean function. *)
Definition differs {T V} (strict_equals : V → V → bool) (selector : T → V)
    (l1 l2 : list T) : bool :=
  existsb (fun s =>
    negb (existsb (fun ss => strict_equals (selector s) (selector ss)) l2)) l1.

(** Every array of the store [h] is in [h'] with the same elements. *)
Definition preserved {T} (h h' : list (list T)) : Prop :=
  ∀ (r : Ref) (l : list T), h !! r = Some l → h' !! r = Some l.

(** [r] is not allocated in [h]. *)
Definition fresh {T} (h : list (list T)) (r : Ref) : Prop := h !! r = None.

(** The collection of the projected values, in the same representation. *)
Definition map_elements {T V} (f : T → V) (c : Collection T) : Collection V :=
  match c with
  | Undefined => Undefined
  | Null => Null
  | PlainArray l => PlainArray (f <$> l)
  | ImmutableList l => ImmutableList (f <$> l)
  end.

(** What the statements use of String.prototype.toLowerCase: only the
    empty string has an empty lower-case form, and on a string of ASCII
    code units it lower-cases the letters [A]..[Z] and nothing else. *)
Definition lower_case_contract (toLowerCase : JsString → JsString) : Prop :=
  (∀ s, toLowerCase s = [] ↔ s = []) ∧
  (∀ s, forallb (fun c => N.ltb c 128) s = true → toLowerCase s = lower_ascii <$> s).

(** The ASCII case mapping on a whole string. *)
Definition lower_ascii_string (s : JsString) : JsString := lower_ascii <$> s.

(** A key that is absent or made of ASCII code units. *)
Definition ascii_key (k : option JsString) : bool :=
  match k with
  | None => true
  | Some s => forallb (fun c => N.ltb c 128) s
  end.

(** The key the comparator of [sortByString] looks at: the projected
    string, lower-cased unless the comparison is case sensitive. *)
Definition sort_key {T} (toLowerCase : JsString → JsString)
    (selector : T → option JsString) (caseSensitive : bool) (x : T) : option JsString :=
  if negb caseSensitive then toLowerCase <$> selector x else selector x.

(** [a] does not have to come after [b]: the key of [b] is not below the
    key of [a]. *)
Definition key_le {T} (toLowerCase : JsString → JsString)
    (selector : T → option JsString) (caseSensitive : bool) (a b : T) : Prop :=
  string_lt (sort_key toLowerCase selector caseSensitive b)
            (sort_key toLowerCase selector caseSensitive a) = false.

(** The state of the sort after the elements [seen], read from the right:
    the elements without a key in the order they came in, then the
    elements with a key in descending key order. *)
Definition insertion_state {T} (toLowerCase : JsString → JsString)
    (selector : T → option JsString) (caseSensitive : bool)
    (seen rev_prefix : list T) : Prop :=
  ∃ N,
    rev_prefix = rev (filter (fun x => empty_or_null (selector x) = true) seen) ++ N ∧
    N ≡ₚ filter (fun x => empty_or_null (selector x) = false) seen ∧
    StronglySorted (fun u v => key_le toLowerCase selector caseSensitive v u) N.

(* ------------------------------------------------------------------------ *)
(** ** Length and emptiness *)
(* ------------------------------------------------------------------------ *)

Section LengthEmptiness.
Context {T : Type}.
Implicit Types (c : Collection T) (cs : list (Collection T)).

Lemma blank_true c : blank c = true ↔ eq_null c = true ∨ elements c = [].
Proof.
  unfold blank. rewrite orb_true_iff, bool_decide_eq_true. reflexivity.
Qed.

Lemma blank_false c : blank c = false ↔ eq_null c = false ∧ elements c ≠ [].
Proof.
  unfold blank. rewrite orb_false_iff, bool_decide_eq_false. reflexivity.
Qed.

Lemma length_present c :
  eq_null c = false → _length c = Normal (Some (Z.of_nat (length (elements c)))).
Proof. destruct c; simpl; intros E; try discriminate E; reflexivity. Qed.

(** One turn of the loop of [_isEmpty] on the flag [acc]. *)
Lemma isEmpty_loop cs : ∀ acc : bool,
  forEach (fun collection isEmpty =>
    if eq_null collection then Normal isEmpty
    else if instanceof_List collection then
      size ← get_size collection;
      if strict_neq size (Some 0) then Normal false else Normal isEmpty
    else
      len ← get_length collection;
      if strict_neq len (Some 0) then Normal false else Normal isEmpty)
    cs acc = Normal (acc && forallb blank cs).
Proof.
  induction cs as [|c cs IH]; intros acc; simpl.
  - by rewrite andb_true_r.
  - destruct c as [| |[|x l]|[|x l]]; simpl; rewrite IH; f_equal;
      destruct acc; reflexivity.
Qed.

Lemma isEmpty_forallb cs : _isEmpty cs = Normal (forallb blank cs).
Proof. unfold _isEmpty. by rewrite isEmpty_loop. Qed.

Lemma hasValues_loop cs : ∀ acc : bool,
  forEach (fun collection hasValues =>
    e ← _isEmpty [collection];
    if negb e then Normal true else Normal hasValues)
    cs acc = Normal (acc || negb (forallb blank cs)).
Proof.
  induction cs as [|c cs IH]; intros acc; simpl.
  - by rewrite orb_false_r.
  - rewrite isEmpty_forallb. simpl. rewrite andb_true_r.
    destruct (blank c); simpl; rewrite IH; [reflexivity|].
    by rewrite orb_true_r.
Qed.

(** C5: [length] of an absent input is the sentinel -1 (the call does not
    fail), [length] of an [Immutable.List] is its size and [length] of an
    array is its element count. *)
Theorem length_dispatch :
  _length (@Undefined T) = Normal (Some (-1)) ∧
  _length (@Null T) = Normal (Some (-1)) ∧
  (∀ l : list T, _length (ImmutableList l) = Normal (Some (Z.of_nat (length l)))) ∧
  (∀ l : list T, _length (PlainArray l) = Normal (Some (Z.of_nat (length l)))).
Proof. repeat split. Qed.

(** C3: [isEmpty] returns [true] exactly when every argument is absent or
    holds no element, and [false] exactly when some argument holds an
    element; no argument, an empty array, and a mix of the two
    representations are covered. *)
Theorem isEmpty_iff_all_blank cs :
  (_isEmpty cs = Normal true ↔ Forall (fun c => eq_null c = true ∨ elements c = []) cs) ∧
  (_isEmpty cs = Normal false ↔ Exists (fun c => eq_null c = false ∧ elements c ≠ []) cs) ∧
  _isEmpty (@nil (Collection T)) = Normal true ∧
  _isEmpty [@PlainArray T []] = Normal true ∧
  _isEmpty [@PlainArray T []; ImmutableList []; Undefined; Null] = Normal true ∧
  (∀ x : T, _isEmpty [PlainArray [x]] = Normal false) ∧
  (∀ x : T, _isEmpty [PlainArray []; ImmutableList [x]] = Normal false) ∧
  (∀ x : T, _isEmpty [ImmutableList []; PlainArray [x]] = Normal false).
Proof.
  rewrite isEmpty_forallb. repeat split; try reflexivity.
  - intros [= H]. apply Forall_forall. intros c Hc.
    apply blank_true. rewrite forallb_forall in H. apply H.
    by apply list_elem_of_In.
  - intros H. f_equal. apply forallb_forall. intros c Hc.
    apply blank_true. rewrite Forall_forall in H. apply H.
    by apply list_elem_of_In.
  - intros [= H]. apply Exists_exists.
    induction cs as [|c cs IH]; [discriminate H|]. simpl in H.
    apply andb_false_iff in H as [H|H].
    + exists c. split; [left|]. by apply blank_false.
    + destruct (IH H) as (c' & Hin & Hc'). exists c'. split; [by right|done].
  - intros H. f_equal. apply Exists_exists in H as (c & Hin & Hc).
    apply blank_false in Hc. apply not_true_is_false. intros Hall.
    rewrite forallb_forall in Hall. apply list_elem_of_In, Hall in Hin.
    congruence.
Qed.

(** C4: on every argument list [isNotEmpty] is the negation of
    [isEmpty], and the loop of [hasValues] returns what [isNotEmpty]
    returns. *)
Theorem isNotEmpty_hasValues_agree cs :
  ∃ e : bool,
    _isEmpty cs = Normal e ∧
    _isNotEmpty cs = Normal (negb e) ∧
    _hasValues cs = Normal (negb e) ∧
    _hasValues cs = _isNotEmpty cs.
Proof.
  exists (forallb blank cs).
  assert (Hn : _isNotEmpty cs = Normal (negb (forallb blank cs))).
  { unfold _isNotEmpty. by rewrite isEmpty_forallb. }
  assert (Hv : _hasValues cs = Normal (negb (forallb blank cs))).
  { unfold _hasValues. by rewrite hasValues_loop. }
  split; [apply isEmpty_forallb|]. by rewrite Hn, Hv.
Qed.
End LengthEmptiness.

(* ------------------------------------------------------------------------ *)
(** ** equalsBy *)
(* ------------------------------------------------------------------------ *)

Section EqualsByFacts.
Context {T V : Type}.
Variable strict_equals : V → V → bool.
Variable selector : T → V.
Implicit Types (l : list T) (c : Collection T).
Local Abbreviation differs := (differs strict_equals selector).

(** A scan whose callback never throws is [existsb]. *)
Lemma some_elems_existsb (cb : T → Completion bool) (p : T → bool) l :
  (∀ x, cb x = Normal (p x)) → some_elems cb l = Normal (existsb p l).
Proof.
  intros Hcb. induction l as [|x l IH]; simpl; [done|].
  rewrite Hcb. simpl. by destruct (p x).
Qed.

Lemma some_differs c1 c2 :
  eq_null c1 = false → eq_null c2 = false →
  some c1 (fun s =>
    b ← some c2 (fun ss => Normal (strict_equals (selector s) (selector ss)));
    Normal (negb b)) = Normal (differs (elements c1) (elements c2)).
Proof.
  intros H1 H2.
  assert (Hin : ∀ s, (b ← some c2 (fun ss =>
                         Normal (strict_equals (selector s) (selector ss)));
                      Normal (negb b))
            = Normal (negb (existsb (fun ss =>
                         strict_equals (selector s) (selector ss)) (elements c2)))).
  { intros s. destruct c2; try discriminate H2; simpl;
      by erewrite some_elems_existsb. }
  destruct c1; try discriminate H1; simpl; by apply some_elems_existsb.
Qed.

Lemma differs_false l1 l2 :
  differs l1 l2 = false ↔ contained strict_equals selector l1 l2.
Proof.
  unfold differs, contained. induction l1 as [|s l1 IH]; simpl.
  - split; [constructor|done].
  - rewrite orb_false_iff, negb_false_iff, IH, Forall_cons.
    rewrite existsb_exists, Exists_exists.
    by setoid_rewrite list_elem_of_In.
Qed.

Lemma contained_perm l1 l1' l2 l2' :
  l1 ≡ₚ l1' → l2 ≡ₚ l2' →
  contained strict_equals selector l1 l2 → contained strict_equals selector l1' l2'.
Proof.
  unfold contained. intros H1 H2 H. rewrite <- H1.
  eapply Forall_impl; [exact H|]. intros s Hs. by rewrite <- H2.
Qed.

Lemma differs_perm l1 l1' l2 l2' :
  l1 ≡ₚ l1' → l2 ≡ₚ l2' → differs l1 l2 = differs l1' l2'.
Proof.
  intros H1 H2.
  destruct (differs l1 l2) eqn:E, (differs l1' l2') eqn:E'; try done.
  - apply differs_false in E'.
    apply (contained_perm l1' l1 l2' l2) in E'; [|done..].
    apply differs_false in E'. congruence.
  - apply differs_false in E.
    apply (contained_perm l1 l1' l2 l2') in E; [|done..].
    apply differs_false in E. congruence.
Qed.

(** What [_equalsBy] computes on two present collections. *)
Lemma equalsBy_present c1 c2 :
  eq_null c1 = false → eq_null c2 = false →
  _equalsBy strict_equals selector c1 c2 =
    Normal (if bool_decide (length (elements c1) = length (elements c2))
            then negb (differs (elements c1) (elements c2)
                       || differs (elements c2) (elements c1))
            else false).
Proof.
  intros H1 H2. unfold _equalsBy. rewrite H1, H2.
  rewrite !length_present by done. simpl.
  rewrite !some_differs by done.
  case_bool_decide as Hlen.
  - rewrite Hlen, Z.eqb_refl. simpl.
    by destruct (differs (elements c1) (elements c2)).
  - destruct (Z.eqb_spec (Z.of_nat (length (elements c1)))
                         (Z.of_nat (length (elements c2)))) as [E|E]; [|done].
    by apply Nat2Z.inj in E.
Qed.

(** C1: the case analysis of [equalsBy]: an absent first argument gives
    [true] exactly when the second is absent too; a present first and an
    absent second argument give [false]; different element counts give
    [false]; otherwise the result is [true] exactly when every projected
    value of either collection is [===] to a projected value of the
    other. *)
Theorem equalsBy_case_analysis (seqA seqB : Collection T) :
  (eq_null seqA = true →
     _equalsBy strict_equals selector seqA seqB = Normal (eq_null seqB)) ∧
  (eq_null seqA = false → eq_null seqB = true →
     _equalsBy strict_equals selector seqA seqB = Normal false) ∧
  (eq_null seqA = false → eq_null seqB = false →
   _length seqA ≠ _length seqB →
     _equalsBy strict_equals selector seqA seqB = Normal false) ∧
  (eq_null seqA = false → eq_null seqB = false →
   _length seqA = _length seqB →
     ∃ b : bool,
       _equalsBy strict_equals selector seqA seqB = Normal b ∧
       (b = true ↔
          contained strict_equals selector (elements seqA) (elements seqB) ∧
          contained strict_equals selector (elements seqB) (elements seqA))).
Proof.
  split; [|split; [|split]].
  - intros HA. unfold _equalsBy. by rewrite HA.
  - intros HA HB. unfold _equalsBy. by rewrite HA, HB.
  - intros HA HB Hlen. rewrite equalsBy_present by done.
    case_bool_decide as E; [|done].
    rewrite !length_present in Hlen by done. by rewrite E in Hlen.
  - intros HA HB Hlen. rewrite equalsBy_present by done.
    rewrite !length_present in Hlen by done.
    injection Hlen as Hlen. apply Nat2Z.inj in Hlen.
    rewrite bool_decide_eq_true_2 by done.
    eexists. split; [reflexivity|].
    rewrite negb_true_iff, orb_false_iff, !differs_false. reflexivity.
Qed.

(** Rearranging the elements of either argument does not change the
    result. *)
Lemma equalsBy_permuted (a a' b b' : Collection T) :
  permuted a a' → permuted b b' →
  _equalsBy strict_equals selector a b = _equalsBy strict_equals selector a' b'.
Proof.
  intros Ha Hb.
  destruct Ha as [| |la la' Ha|la la' Ha]; 
    destruct Hb as [| |lb lb' Hb|lb lb' Hb]; try reflexivity;
    rewrite !equalsBy_present by done; simpl;
    rewrite (Permutation_length Ha), (Permutation_length Hb),
      (differs_perm _ _ _ _ Ha Hb), (differs_perm _ _ _ _ Hb Ha); reflexivity.
Qed.
End EqualsByFacts.

(** C2: [equalsBy] checks containment, not equality of multisets, and
    ignores order: on two present collections the result is [true]
    exactly when they have the same number of elements and every
    projected value of either is [===] to one of the other; so [1,1,2] and
    [1,2,2] compare equal although they are not rearrangements of each
    other, [1,2] and [2,1] compare equal, [1,2] and [1,3] do not, and for
    every selector the result is the same after the elements of either
    argument are rearranged. *)
Theorem equalsBy_containment_order_independent :
  _equalsBy Z.eqb id (PlainArray [1; 1; 2]) (PlainArray [1; 2; 2]) = Normal true ∧
  ¬ [1; 1; 2] ≡ₚ [1; 2; 2] ∧
  _equalsBy Z.eqb id (PlainArray [1; 2]) (PlainArray [2; 1]) = Normal true ∧
  (∀ (T V : Type) (strict_equals : V → V → bool) (selector : T → V)
     (a a' b b' : Collection T),
     permuted a a' → permuted b b' →
     _equalsBy strict_equals selector a b = _equalsBy strict_equals selector a' b') ∧
  (∀ (T V : Type) (strict_equals : V → V → bool) (selector : T → V)
     (a b : Collection T),
     eq_null a = false → eq_null b = false →
     ∃ r : bool,
       _equalsBy strict_equals selector a b = Normal r ∧
       (r = true ↔
          length (elements a) = length (elements b) ∧
          contained strict_equals selector (elements a) (elements b) ∧
          contained strict_equals selector (elements b) (elements a))) ∧
  _equalsBy Z.eqb id (PlainArray [1; 2]) (PlainArray [1; 3]) = Normal false ∧
  _equalsBy Z.eqb id (PlainArray [1; 1; 2]) (PlainArray [1; 2; 3]) = Normal false ∧
  _equalsBy Z.eqb id (PlainArray [1; 2]) (PlainArray [1; 2; 2]) = Normal false.
Proof.
  split; [reflexivity|]. split; [|split; [reflexivity|]].
  { intros H. apply (Permutation_count_occ Z.eq_dec) with (x := 1) in H.
    discriminate H. }
  split; [intros; by apply equalsBy_permuted|].
  split; [|by repeat split].
  intros T V strict_equals selector a b Ha Hb.
  rewrite equalsBy_present by done. eexists. split; [reflexivity|].
  case_bool_decide as Hlen.
  - rewrite negb_true_iff, orb_false_iff, !differs_false. tauto.
  - split; [discriminate|tauto].
Qed.

(* ------------------------------------------------------------------------ *)
(** ** The index helpers *)
(* ------------------------------------------------------------------------ *)

Section ArrayFacts.
Context {T : Type}.
Implicit Types (h : list (list T)) (l : list T) (r source : Ref).

Lemma exec_bind_normal {A B} (m : Exec T A) (k : A → Exec T B) h a h' :
  m h = Normal (a, h') → (m ≫= k) h = k a h'.
Proof. intros H. unfold mbind, exec_bind. by rewrite H. Qed.

Lemma arr_read_live h r l : h !! r = Some l → arr_read r h = Normal (l, h).
Proof. intros H. unfold arr_read. by rewrite H. Qed.

Lemma arr_length_live h r l :
  h !! r = Some l → arr_length r h = Normal (Z.of_nat (length l), h).
Proof.
  intros H. unfold arr_length.
  by rewrite (exec_bind_normal _ _ _ _ _ (arr_read_live _ _ _ H)).
Qed.

(** One step of a run: the first action returns [a] in the store [h']. *)
Tactic Notation "exec_step" open_constr(H) :=
  erewrite (exec_bind_normal _ _ _ _ _ H).

Lemma fresh_length h : fresh h (length h).
Proof. by apply lookup_ge_None_2. Qed.

Lemma preserved_refl h : preserved h h.
Proof. by intros r l. Qed.

Lemma preserved_trans h1 h2 h3 : preserved h1 h2 → preserved h2 h3 → preserved h1 h3.
Proof. intros H12 H23 r l Hr. by apply H23, H12. Qed.

Lemma preserved_alloc h l : preserved h (h ++ [l]).
Proof. intros r l' Hr. by apply lookup_app_l_Some. Qed.

Lemma lookup_alloc h l : (h ++ [l]) !! length h = Some l.
Proof. by rewrite lookup_app_r, Nat.sub_diag. Qed.

(** Updating an array allocated after [h] leaves the arrays of [h] alone. *)
Lemma preserved_update_new h h' r l :
  preserved h h' → fresh h r → preserved h (<[r := l]> h').
Proof.
  intros Hp Hf r' l' Hr'. rewrite list_lookup_insert_ne; [by apply Hp|].
  intros ->. unfold fresh in Hf. congruence.
Qed.

Lemma delete_at_length l : delete (length l) l = l.
Proof.
  rewrite delete_take_drop, take_ge, drop_ge by lia. apply app_nil_r.
Qed.

Lemma splice_one l (index : Z) :
  0 ≤ index ≤ Z.of_nat (length l) →
  (splice_elems l index 1).1 = delete (Z.to_nat index) l.
Proof.
  intros Hi. unfold splice_elems, relative_index. simpl.
  destruct (Z.ltb_spec index 0) as [?|_]; [lia|].
  rewrite Z.min_l by lia. rewrite delete_take_drop.
  destruct (decide (index = Z.of_nat (length l))) as [->|Hne].
  - rewrite Z.min_r by lia. rewrite !drop_ge; [done|lia..].
  - rewrite Z.min_l by lia. do 2 f_equal. lia.
Qed.

Lemma removeElementAt_in_range h source l (index : Z) :
  h !! source = Some l → 0 ≤ index ≤ Z.of_nat (length l) →
  ∃ removed,
    _removeElementAt source index h =
      Normal (length h, <[length h := delete (Z.to_nat index) l]> (h ++ [l]) ++ [removed]).
Proof.
  intros Hs Hi. unfold _removeElementAt.
  exec_step (arr_length_live _ _ _ Hs).
  destruct (Z.ltb_spec index 0) as [?|_]; [lia|].
  destruct (Z.gtb_spec index (Z.of_nat (length l))) as [?|_]; [lia|]. simpl.
  exec_step (arr_read_live _ _ _ Hs).
  unfold mbind at 1, exec_bind at 1. unfold arr_new at 1.
  unfold mbind, exec_bind, arr_splice. rewrite lookup_alloc.
  pose proof (splice_one l index Hi) as Hk.
  destruct (splice_elems l index 1) as [kept removed]. simpl in Hk. subst kept.
  exists removed. unfold arr_new, mret, exec_ret.
  reflexivity.
Qed.

Lemma removeElementAt_out_of_range h source l (index : Z) :
  h !! source = Some l → index < 0 ∨ index > Z.of_nat (length l) →
  _removeElementAt source index h = Normal (source, h).
Proof.
  intros Hs Hout. unfold _removeElementAt.
  exec_step (arr_length_live _ _ _ Hs).
  destruct (Z.ltb_spec index 0) as [?|?]; [done|].
  destruct (Z.gtb_spec index (Z.of_nat (length l))) as [?|?]; [done|lia].
Qed.

(** C6: outside [0 .. length] the call returns the reference it was given
    and leaves the store as it is; at [index = length] it returns a new
    array with the elements of [source]; inside the array it returns a new
    array without the element at [index]; [source] keeps its elements in
    every case. *)
Theorem removeElementAt_spec h source l (index : Z) :
  h !! source = Some l →
  (index < 0 ∨ index > Z.of_nat (length l) →
     _removeElementAt source index h = Normal (source, h)) ∧
  (index = Z.of_nat (length l) →
     ∃ r h', _removeElementAt source index h = Normal (r, h') ∧
       fresh h r ∧ h' !! r = Some l ∧
       preserved h h' ∧ h' !! source = Some l) ∧
  (0 ≤ index < Z.of_nat (length l) →
     ∃ r h', _removeElementAt source index h = Normal (r, h') ∧
       fresh h r ∧ h' !! r = Some (delete (Z.to_nat index) l) ∧
       length (delete (Z.to_nat index) l) = (length l - 1)%nat ∧
       preserved h h' ∧ h' !! source = Some l).
Proof.
  intros Hs.
  assert (Hin : 0 ≤ index ≤ Z.of_nat (length l) →
    ∃ r h', _removeElementAt source index h = Normal (r, h') ∧
      fresh h r ∧ h' !! r = Some (delete (Z.to_nat index) l) ∧
      preserved h h' ∧ h' !! source = Some l).
  { intros Hi. destruct (removeElementAt_in_range h source l index Hs Hi)
      as [removed ->].
    assert (Hp : preserved h
              (<[length h := delete (Z.to_nat index) l]> (h ++ [l]) ++ [removed])).
    { eapply preserved_trans; [|apply preserved_alloc].
      apply preserved_update_new; [apply preserved_alloc|apply fresh_length]. }
    eexists _, _. split; [reflexivity|]. split; [apply fresh_length|].
    split; [|split; [exact Hp|by apply Hp]].
    apply lookup_app_l_Some, list_lookup_insert_eq.
    rewrite length_app. simpl. lia. }
  split; [|split].
  - by apply removeElementAt_out_of_range.
  - intros ->. destruct Hin as (r & h' & Hrun & Hf & Hr & Hp & Hsrc); [lia|].
    exists r, h'. by rewrite Nat2Z.id, delete_at_length in Hr.
  - intros Hi. destruct Hin as (r & h' & Hrun & Hf & Hr & Hp & Hsrc); [lia|].
    exists r, h'. repeat split; try done.
    rewrite length_delete; [done|]. apply lookup_lt_is_Some. lia.
Qed.

Lemma slice_before l (index : Z) :
  0 ≤ index → slice_elems l 0 (Some index) = take (Z.to_nat index) l.
Proof.
  intros Hi. unfold slice_elems, relative_index. simpl.
  destruct (Z.ltb_spec index 0) as [?|_]; [lia|].
  rewrite (Z.min_l 0) by lia. rewrite Z.sub_0_r, Z.max_l by lia.
  change (Z.to_nat 0) with 0%nat. rewrite drop_0.
  destruct (Z.le_ge_cases index (Z.of_nat (length l))).
  - by rewrite Z.min_l by lia.
  - rewrite Z.min_r by lia. rewrite Nat2Z.id, !take_ge; [done|lia..].
Qed.

Lemma slice_after l (index : Z) :
  0 ≤ index → slice_elems l (index + 1) None = drop (Z.to_nat (index + 1)) l.
Proof.
  intros Hi. unfold slice_elems, relative_index.
  destruct (Z.ltb_spec (index + 1) 0) as [?|_]; [lia|].
  rewrite take_ge by (rewrite length_drop; lia).
  destruct (Z.le_ge_cases (index + 1) (Z.of_nat (length l))).
  - by rewrite Z.min_l by lia.
  - rewrite Z.min_r by lia. rewrite !drop_ge; [done|lia..].
Qed.

Lemma arr_slice_live h r l (start : Z) (end_ : option Z) :
  h !! r = Some l →
  arr_slice r start end_ h = Normal (length h, h ++ [slice_elems l start end_]).
Proof.
  intros H. unfold arr_slice.
  by exec_step (arr_read_live _ _ _ H).
Qed.

(** The run of [_replaceElementAt] through each of its branches. *)
Lemma replaceElementAt_guard h source l (index : Z) (value : T) :
  h !! source = Some l → l = [] ∨ index < 0 →
  _replaceElementAt source index value h = Normal (source, h).
Proof.
  intros Hs Hout. unfold _replaceElementAt.
  exec_step (arr_length_live _ _ _ Hs).
  destruct Hout as [->|Hneg]; [reflexivity|].
  destruct (Z.ltb_spec index 0) as [?|?]; [|lia].
  by rewrite orb_true_r.
Qed.

Lemma replaceElementAt_single h source l (index : Z) (value : T) :
  h !! source = Some l → length l = 1%nat → 0 ≤ index →
  _replaceElementAt source index value h = Normal (length h, h ++ [[value]]).
Proof.
  intros Hs Hlen Hi. unfold _replaceElementAt.
  exec_step (arr_length_live _ _ _ Hs).
  destruct (Z.eqb_spec (Z.of_nat (length l)) 0) as [?|_]; [lia|].
  destruct (Z.ltb_spec index 0) as [?|_]; [lia|]. simpl.
  exec_step (arr_length_live _ _ _ Hs).
  by destruct (Z.eqb_spec (Z.of_nat (length l)) 1) as [_|?]; [|lia].
Qed.

Lemma replaceElementAt_last h source l (index : Z) (value : T) :
  h !! source = Some l → (2 ≤ length l)%nat → index = Z.of_nat (length l) - 1 →
  _replaceElementAt source index value h =
    Normal (S (length h),
            h ++ [take (Z.to_nat index) l] ++ [take (Z.to_nat index) l ++ [value]]).
Proof.
  intros Hs Hlen Hi. unfold _replaceElementAt.
  exec_step (arr_length_live _ _ _ Hs).
  destruct (Z.eqb_spec (Z.of_nat (length l)) 0) as [?|_]; [lia|].
  destruct (Z.ltb_spec index 0) as [?|_]; [lia|]. simpl.
  exec_step (arr_length_live _ _ _ Hs).
  destruct (Z.eqb_spec (Z.of_nat (length l)) 1) as [?|_]; [lia|].
  exec_step (arr_length_live _ _ _ Hs).
  destruct (Z.eqb_spec index (Z.of_nat (length l) - 1)) as [_|?]; [|lia].
  exec_step (arr_slice_live _ _ _ _ _ Hs).
  exec_step (arr_read_live _ _ _ (lookup_alloc _ _)).
  unfold arr_new. rewrite slice_before by lia.
  rewrite length_app, Nat.add_comm. simpl. by rewrite <- app_assoc.
Qed.

Lemma replaceElementAt_general h source l (index : Z) (value : T) :
  h !! source = Some l → (2 ≤ length l)%nat →
  0 ≤ index → index ≠ Z.of_nat (length l) - 1 →
  _replaceElementAt source index value h =
    Normal (S (S (length h)),
            h ++ [take (Z.to_nat index) l] ++ [drop (Z.to_nat (index + 1)) l]
              ++ [take (Z.to_nat index) l ++ [value]
                    ++ drop (Z.to_nat (index + 1)) l]).
Proof.
  intros Hs Hlen Hi Hne. unfold _replaceElementAt.
  exec_step (arr_length_live _ _ _ Hs).
  destruct (Z.eqb_spec (Z.of_nat (length l)) 0) as [?|_]; [lia|].
  destruct (Z.ltb_spec index 0) as [?|_]; [lia|]. simpl.
  exec_step (arr_length_live _ _ _ Hs).
  destruct (Z.eqb_spec (Z.of_nat (length l)) 1) as [?|_]; [lia|].
  exec_step (arr_length_live _ _ _ Hs).
  destruct (Z.eqb_spec index (Z.of_nat (length l) - 1)) as [?|_]; [lia|].
  exec_step (arr_slice_live _ _ _ _ _ Hs).
  exec_step (arr_read_live _ _ _ (lookup_alloc _ _)).
  exec_step (arr_slice_live _ _ _ _ _ (preserved_alloc _ _ _ _ Hs)).
  exec_step (arr_read_live _ _ _ (lookup_alloc _ _)).
  unfold arr_new. rewrite slice_before, slice_after by lia.
  rewrite !length_app. simpl. rewrite <- !app_assoc. simpl.
  do 2 f_equal. lia.
Qed.


(** A result allocated after some temporaries, on top of [h]. *)
Lemma allocated_on_top h (temps : list (list T)) (res : list T) r :
  r = (length h + length temps)%nat →
  fresh h r ∧ (h ++ temps ++ [res]) !! r = Some res ∧ preserved h (h ++ temps ++ [res]).
Proof.
  intros ->. split; [apply lookup_ge_None_2; lia|]. split.
  - rewrite lookup_app_r by lia. rewrite lookup_app_r by lia.
    replace (length h + length temps - length h - length temps)%nat with 0%nat by lia.
    reflexivity.
  - intros r l Hr. by apply lookup_app_l_Some.
Qed.

(** C7: [replaceElementAt] returns the reference it was given when the
    array is empty or the index negative; a new one-element array
    [[value]] when the array has one element, whatever the index; the
    elements before [index] followed by [value] when [index] is the last
    position; the elements before [index], [value], and the elements
    after [index] otherwise; [source] keeps its elements in every case. *)
Theorem replaceElementAt_spec h source l (index : Z) (value : T) :
  h !! source = Some l →
  (l = [] ∨ index < 0 →
     _replaceElementAt source index value h = Normal (source, h)) ∧
  (length l = 1%nat → 0 ≤ index →
     ∃ r h', _replaceElementAt source index value h = Normal (r, h') ∧
       fresh h r ∧ h' !! r = Some [value] ∧
       preserved h h' ∧ h' !! source = Some l) ∧
  ((2 ≤ length l)%nat → index = Z.of_nat (length l) - 1 →
     ∃ r h', _replaceElementAt source index value h = Normal (r, h') ∧
       fresh h r ∧ h' !! r = Some (take (Z.to_nat index) l ++ [value]) ∧
       preserved h h' ∧ h' !! source = Some l) ∧
  ((2 ≤ length l)%nat → 0 ≤ index → index ≠ Z.of_nat (length l) - 1 →
     ∃ r h', _replaceElementAt source index value h = Normal (r, h') ∧
       fresh h r ∧
       h' !! r = Some (take (Z.to_nat index) l ++ [value]
                         ++ drop (S (Z.to_nat index)) l) ∧
       preserved h h' ∧ h' !! source = Some l).
Proof.
  intros Hs. split; [|split; [|split]].
  - by apply replaceElementAt_guard.
  - intros Hlen Hi. rewrite (replaceElementAt_single h source l index value) by done.
    destruct (allocated_on_top h [] [value] (length h)) as (Hf & Hr & Hp);
      [simpl; lia|].
    eexists _, _. split; [reflexivity|]. repeat split; try done. by apply Hp.
  - intros Hlen Hi. rewrite (replaceElementAt_last h source l index value) by done.
    destruct (allocated_on_top h [take (Z.to_nat index) l]
                (take (Z.to_nat index) l ++ [value]) (S (length h)))
      as (Hf & Hr & Hp); [simpl; lia|].
    eexists _, _. split; [reflexivity|]. repeat split; try done. by apply Hp.
  - intros Hlen Hi Hne.
    rewrite (replaceElementAt_general h source l index value) by done.
    replace (Z.to_nat (index + 1)) with (S (Z.to_nat index)) by lia.
    destruct (allocated_on_top h
                [take (Z.to_nat index) l; drop (S (Z.to_nat index)) l]
                (take (Z.to_nat index) l ++ [value] ++ drop (S (Z.to_nat index)) l)
                (S (S (length h))))
      as (Hf & Hr & Hp); [simpl; lia|].
    eexists _, _. split; [reflexivity|]. repeat split; try done. by apply Hp.
Qed.

(** C10: on an array of at least two elements an index at or beyond the
    length makes [replaceElementAt] return a new array that is [source]
    with [value] appended: one element longer, every element of [source]
    kept in place, and [source] itself as it was. *)
Theorem replaceElementAt_beyond_end_appends h source l (index : Z) (value : T) :
  h !! source = Some l → (2 ≤ length l)%nat → Z.of_nat (length l) ≤ index →
  ∃ r h', _replaceElementAt source index value h = Normal (r, h') ∧
    r ≠ source ∧ fresh h r ∧
    h' !! r = Some (l ++ [value]) ∧
    length (l ++ [value]) = S (length l) ∧
    (∀ i x, l !! i = Some x → (l ++ [value]) !! i = Some x) ∧
    preserved h h' ∧ h' !! source = Some l.
Proof.
  intros Hs Hlen Hi.
  rewrite (replaceElementAt_general h source l index value) by (done || lia).
  rewrite take_ge, drop_ge by lia.
  destruct (allocated_on_top h [l; []] (l ++ [value] ++ []) (S (S (length h))))
    as (Hf & Hr & Hp); [simpl; lia|].
  eexists _, _. split; [reflexivity|]. rewrite app_nil_r in *.
  repeat split; try done.
  - intros <-. unfold fresh in Hf. congruence.
  - rewrite length_app. simpl. lia.
  - intros i x Hx. by apply lookup_app_l_Some.
  - by apply Hp.
Qed.
End ArrayFacts.

(* ------------------------------------------------------------------------ *)
(** ** sortByString *)
(* ------------------------------------------------------------------------ *)

(** *** The order of strings *)

Lemma units_eqb_eq (a b : JsString) : units_eqb a b = true ↔ a = b.
Proof.
  revert b. induction a as [|x a IH]; intros [|y b]; simpl; try done.
  rewrite andb_true_iff, N.eqb_eq, IH. split; [by intros [-> ->]|].
  by intros [= -> ->].
Qed.

Lemma units_eqb_refl (a : JsString) : units_eqb a a = true.
Proof. by apply units_eqb_eq. Qed.

Lemma units_eqb_sym (a b : JsString) : units_eqb a b = units_eqb b a.
Proof.
  destruct (units_eqb a b) eqn:E, (units_eqb b a) eqn:E'; try done.
  - apply units_eqb_eq in E as ->. by rewrite units_eqb_refl in E'.
  - apply units_eqb_eq in E' as ->. by rewrite units_eqb_refl in E.
Qed.

Lemma units_ltb_irrefl (a : JsString) : units_ltb a a = false.
Proof.
  induction a as [|x a IH]; simpl; [done|].
  by rewrite N.ltb_irrefl, N.eqb_refl.
Qed.

Lemma units_ltb_trans (a b c : JsString) :
  units_ltb a b = true → units_ltb b c = true → units_ltb a c = true.
Proof.
  revert b c. induction a as [|x a IH]; intros [|y b] [|z c]; simpl; try done.
  destruct (N.ltb_spec x y), (N.eqb_spec x y), (N.ltb_spec y z), (N.eqb_spec y z),
    (N.ltb_spec x z), (N.eqb_spec x z); try done; try lia; subst; eauto.
Qed.

Lemma units_ltb_asym (a b : JsString) : units_ltb a b = true → units_ltb b a = false.
Proof.
  intros Hab. destruct (units_ltb b a) eqn:Hba; [|done].
  pose proof (units_ltb_trans a b a Hab Hba) as H.
  by rewrite units_ltb_irrefl in H.
Qed.

Lemma units_ltb_connected (a b : JsString) :
  units_ltb a b = false → a ≠ b → units_ltb b a = true.
Proof.
  revert b. induction a as [|x a IH]; intros [|y b]; simpl; try done.
  destruct (N.ltb_spec x y), (N.eqb_spec x y), (N.ltb_spec y x), (N.eqb_spec y x);
    try done; try lia; subst.
  intros Hlt Hne. apply IH; [done|]. congruence.
Qed.

(** [a] at most [b] and [b] at most [c] give [a] at most [c]. *)
Lemma units_ltb_false_trans (a b c : JsString) :
  units_ltb b a = false → units_ltb c b = false → units_ltb c a = false.
Proof.
  intros Hab Hbc. destruct (units_ltb c a) eqn:Hca; [|done].
  destruct (decide (a = b)) as [->|Hne]; [congruence|].
  pose proof (units_ltb_connected b a Hab (not_eq_sym Hne)) as Hlt.
  pose proof (units_ltb_trans c a b Hca Hlt). congruence.
Qed.

(** The ASCII case mapping meets the contract. *)
Lemma lower_ascii_string_contract : lower_case_contract lower_ascii_string.
Proof.
  split; [|done]. intros s. unfold lower_ascii_string. split.
  - apply fmap_nil_inv.
  - by intros ->.
Qed.

(** *** The insertion, for any comparator *)

Section InsertionFacts.
Context {T : Type}.
Implicit Types (x y : T) (l acc : list T) (comparefn : T → T → Z).

Lemma sort_insert_perm comparefn x l : sort_insert comparefn x l ≡ₚ x :: l.
Proof.
  induction l as [|y l IH]; simpl; [done|].
  destruct (comparefn x y <? 0); [|done].
  rewrite IH. apply Permutation_swap.
Qed.

Lemma sort_fold_perm comparefn l : ∀ acc,
  fold_left (fun rev_prefix x => sort_insert comparefn x rev_prefix) l acc ≡ₚ l ++ acc.
Proof.
  induction l as [|x l IH]; intros acc; simpl; [done|].
  rewrite IH, sort_insert_perm. by rewrite Permutation_middle.
Qed.

Lemma sort_insert_ext comparefn comparefn' x l :
  (∀ y, y ∈ l → comparefn x y = comparefn' x y) →
  sort_insert comparefn x l = sort_insert comparefn' x l.
Proof.
  induction l as [|y l IH]; intros H; simpl; [done|].
  rewrite (H y) by left. rewrite IH; [done|]. intros z Hz. apply H. by right.
Qed.

Lemma sort_fold_ext comparefn comparefn' l : ∀ acc,
  (∀ x y, x ∈ l → y ∈ l ++ acc → comparefn x y = comparefn' x y) →
  fold_left (fun rev_prefix x => sort_insert comparefn x rev_prefix) l acc
  = fold_left (fun rev_prefix x => sort_insert comparefn' x rev_prefix) l acc.
Proof.
  induction l as [|x l IH]; intros acc H; simpl; [done|].
  rewrite (sort_insert_ext comparefn comparefn' x acc).
  - apply IH. intros a b Ha Hb. apply H; [by right|].
    rewrite sort_insert_perm in Hb. by rewrite <- Permutation_middle in Hb.
  - intros y Hy. apply H; [left|]. apply elem_of_app. by right.
Qed.

(** The sort looks at the comparator on the elements of the array only. *)
Lemma sort_elems_ext comparefn comparefn' l :
  (∀ x y, x ∈ l → y ∈ l → comparefn x y = comparefn' x y) →
  sort_elems comparefn l = sort_elems comparefn' l.
Proof.
  intros H. unfold sort_elems. f_equal. apply sort_fold_ext.
  intros x y Hx Hy. rewrite app_nil_r in Hy. by apply H.
Qed.

Lemma sortByString_live toLowerCase (selector : T → option JsString)
    (h : list (list T)) (array : Ref) l (caseSensitive : option bool) :
  h !! array = Some l →
  _sortByString toLowerCase selector array caseSensitive h
  = Normal (array,
            <[array := sort_elems
                         (compareByString toLowerCase selector (default false caseSensitive))
                         l]> h).
Proof. intros Hl. unfold _sortByString, arr_sort. by rewrite Hl. Qed.

Lemma filter_keyed_keyless (selector : T → option JsString) l :
  filter (fun x => empty_or_null (selector x) = false) l
    ++ filter (fun x => empty_or_null (selector x) = true) l ≡ₚ l.
Proof.
  induction l as [|x l IH]; [done|].
  destruct (empty_or_null (selector x)) eqn:Hx.
  - rewrite filter_cons_False, filter_cons_True by (done || congruence).
    by rewrite <- Permutation_middle, IH.
  - rewrite filter_cons_True, filter_cons_False by (done || congruence).
    simpl. by rewrite IH.
Qed.
End InsertionFacts.

(** *** The comparator *)

Section ComparatorFacts.
Context {T : Type}.
Variable toLowerCase : JsString → JsString.
Hypothesis lower_case : lower_case_contract toLowerCase.
Variable selector : T → option JsString.
Variable caseSensitive : bool.
Implicit Types (a b x y : T) (l : list T).
Local Abbreviation compare := (compareByString toLowerCase selector caseSensitive).
Local Abbreviation key := (sort_key toLowerCase selector caseSensitive).
Local Abbreviation keyed x := (empty_or_null (selector x) = false).
Local Abbreviation keyless x := (empty_or_null (selector x) = true).
Local Abbreviation descending :=
  (fun u v => key_le toLowerCase selector caseSensitive v u).

Lemma empty_or_null_lower (k : option JsString) :
  empty_or_null (toLowerCase <$> k) = empty_or_null k.
Proof.
  destruct lower_case as [Hempty _]. destruct k as [s|]; simpl; [|done].
  destruct (units_eqb s []) eqn:E.
  - apply units_eqb_eq in E. apply units_eqb_eq. by apply Hempty.
  - destruct (units_eqb (toLowerCase s) []) eqn:E'; [|done].
    apply units_eqb_eq, Hempty in E' as ->. done.
Qed.

Lemma empty_or_null_key a : empty_or_null (key a) = empty_or_null (selector a).
Proof.
  unfold sort_key. destruct caseSensitive; simpl; [done|apply empty_or_null_lower].
Qed.

Lemma compare_empty_left a b : keyless a → compare a b = 1.
Proof.
  intros Ha. rewrite <- empty_or_null_key in Ha. unfold sort_key in Ha.
  unfold compareByString. by rewrite Ha.
Qed.

Lemma compare_empty_right a b : keyed a → keyless b → compare a b = -1.
Proof.
  intros Ha Hb. rewrite <- empty_or_null_key in Ha, Hb. unfold sort_key in Ha, Hb.
  unfold compareByString. by rewrite Ha, Hb.
Qed.

Lemma keyed_some a : keyed a → ∃ s, key a = Some s.
Proof.
  intros Ha. rewrite <- empty_or_null_key in Ha.
  destruct (key a) as [s|]; [by exists s|discriminate Ha].
Qed.

(** The comparator on two elements with a key. *)
Lemma compare_keyed a b sa sb :
  keyed a → keyed b → key a = Some sa → key b = Some sb →
  compare a b = if units_eqb sa sb then 0 else if units_ltb sa sb then -1 else 1.
Proof.
  intros Ha Hb Ka Kb. rewrite <- empty_or_null_key in Ha, Hb.
  unfold compareByString. unfold sort_key in *. by rewrite Ha, Hb, Ka, Kb.
Qed.

Lemma compare_keyed_lt x y :
  keyed x → keyed y → (compare x y <? 0) = string_lt (key x) (key y).
Proof.
  intros Hx Hy.
  destruct (keyed_some x Hx) as [sx Kx], (keyed_some y Hy) as [sy Ky].
  rewrite (compare_keyed x y sx sy) by done. rewrite Kx, Ky. simpl.
  destruct (units_eqb sx sy) eqn:E.
  - apply units_eqb_eq in E as ->. by rewrite units_ltb_irrefl.
  - by destruct (units_ltb sx sy).
Qed.

Lemma key_le_trans x y z :
  keyed x → keyed y → keyed z →
  key_le toLowerCase selector caseSensitive x y →
  key_le toLowerCase selector caseSensitive y z →
  key_le toLowerCase selector caseSensitive x z.
Proof.
  unfold key_le. intros Hx Hy Hz.
  destruct (keyed_some x Hx) as [sx ->], (keyed_some y Hy) as [sy ->],
    (keyed_some z Hz) as [sz ->]. simpl. apply units_ltb_false_trans.
Qed.

(** An element without a key stays where it is put: behind everything. *)
Lemma sort_insert_keyless x l : keyless x → sort_insert compare x l = x :: l.
Proof. intros Hx. destruct l as [|y l]; simpl; [done|]. by rewrite compare_empty_left. Qed.

(** An element with a key moves past the elements without one. *)
Lemma sort_insert_past_keyless x E N :
  keyed x → Forall (fun e => keyless e) E →
  sort_insert compare x (E ++ N) = E ++ sort_insert compare x N.
Proof.
  intros Hx HE. induction HE as [|e E He HE IH]; simpl; [done|].
  by rewrite (compare_empty_right x e Hx He), IH.
Qed.

(** Inserting an element with a key into a descending run of such. *)
Lemma sort_insert_descending x N :
  keyed x → Forall (fun y => keyed y) N →
  StronglySorted descending N →
  StronglySorted descending (sort_insert compare x N).
Proof.
  intros Hx HN Hs. induction Hs as [|y N Hs IH Hy]; simpl.
  - repeat constructor.
  - apply Forall_cons in HN as [Hky HN].
    rewrite (compare_keyed_lt x y) by done.
    destruct (string_lt (key x) (key y)) eqn:Hlt.
    + constructor; [by apply IH|].
      rewrite sort_insert_perm. constructor; [|done].
      unfold key_le. destruct (keyed_some x Hx) as [sx Kx], (keyed_some y Hky) as [sy Ky].
      rewrite Kx, Ky in *. simpl in *. by apply units_ltb_asym.
    + constructor; [by constructor|]. constructor; [done|].
      rewrite Forall_forall in *. intros z Hz.
      apply (key_le_trans z y x); [by apply HN|done|done|by apply Hy|done].
Qed.

Lemma insertion_state_step seen rp x :
  insertion_state toLowerCase selector caseSensitive seen rp →
  insertion_state toLowerCase selector caseSensitive (seen ++ [x])
    (sort_insert compare x rp).
Proof.
  intros (N & -> & HN & Hs). unfold insertion_state. rewrite !filter_app.
  destruct (empty_or_null (selector x)) eqn:Hx.
  - rewrite sort_insert_keyless by done.
    rewrite (filter_cons_True _ x) by done.
    rewrite (filter_cons_False _ x) by congruence.
    rewrite !filter_nil, app_nil_r, rev_app_distr. simpl.
    exists N. by repeat split.
  - rewrite (filter_cons_False _ x) by congruence.
    rewrite (filter_cons_True _ x) by done.
    rewrite !filter_nil, app_nil_r.
    assert (HkN : Forall (fun y => keyed y) N).
    { rewrite HN. apply Forall_forall. intros y Hy.
      by apply list_elem_of_filter in Hy as [Hy _]. }
    rewrite sort_insert_past_keyless; [|done|].
    + exists (sort_insert compare x N). split; [done|]. split.
      * rewrite sort_insert_perm, HN. apply Permutation_cons_append.
      * by apply sort_insert_descending.
    + apply Forall_forall. intros e He.
      apply list_elem_of_In, in_rev, list_elem_of_In in He.
      by apply list_elem_of_filter in He as [He _].
Qed.

Lemma insertion_state_fold l : ∀ seen rp,
  insertion_state toLowerCase selector caseSensitive seen rp →
  insertion_state toLowerCase selector caseSensitive (seen ++ l)
    (fold_left (fun rev_prefix x => sort_insert compare x rev_prefix) l rp).
Proof.
  induction l as [|x l IH]; intros seen rp Hst; simpl.
  - by rewrite app_nil_r.
  - rewrite (cons_middle x seen l), app_assoc. by apply IH, insertion_state_step.
Qed.

(** The sorted array: the elements with a key in ascending key order, then
    the elements without a key in the order they had. *)
Lemma sort_elems_keyed_then_keyless l :
  ∃ keyed_part,
    sort_elems compare l
      = keyed_part ++ filter (fun x => empty_or_null (selector x) = true) l ∧
    keyed_part ≡ₚ filter (fun x => empty_or_null (selector x) = false) l ∧
    StronglySorted (key_le toLowerCase selector caseSensitive) keyed_part.
Proof.
  destruct (insertion_state_fold l [] []) as (N & Hfold & HN & Hs).
  { exists []. repeat split; constructor. }
  simpl in Hfold. unfold sort_elems. rewrite Hfold, rev_app_distr, rev_involutive.
  exists (rev N). split; [done|]. split; [by rewrite <- Permutation_rev|].
  clear Hfold HN. induction Hs as [|y N Hs IH Hy]; simpl; [constructor|].
  apply StronglySorted_app. split; [|split; [done|repeat constructor]].
  intros u v Hu Hv. apply list_elem_of_In, in_rev, list_elem_of_In in Hu.
  apply list_elem_of_singleton in Hv as ->.
  by apply (proj1 (Forall_forall _ _) Hy).
Qed.

(** On ASCII keys the comparator is the one of the ASCII case mapping. *)
Lemma compare_ascii a b :
  ascii_key (selector a) = true → ascii_key (selector b) = true →
  compare a b = compareByString lower_ascii_string selector caseSensitive a b.
Proof.
  destruct lower_case as [_ Hascii]. intros Ha Hb. unfold compareByString.
  destruct caseSensitive; simpl; [done|].
  assert (Hk : ∀ k, ascii_key k = true → toLowerCase <$> k = lower_ascii_string <$> k).
  { intros [s|] Hs; simpl; [|done]. f_equal. by apply Hascii. }
  by rewrite !Hk.
Qed.
End ComparatorFacts.

Lemma sortByString_ascii {T} toLowerCase (selector : T → option JsString)
    (h : list (list T)) (array : Ref) (l : list T) (caseSensitive : option bool) :
  lower_case_contract toLowerCase →
  h !! array = Some l →
  forallb (fun x => ascii_key (selector x)) l = true →
  _sortByString toLowerCase selector array caseSensitive h
  = _sortByString lower_ascii_string selector array caseSensitive h.
Proof.
  intros Hc Hl Hascii. rewrite !(sortByString_live _ _ h array l) by done.
  do 3 f_equal. apply sort_elems_ext. intros x y Hx Hy.
  rewrite forallb_forall in Hascii.
  apply compare_ascii; [done|apply Hascii|apply Hascii]; by apply list_elem_of_In.
Qed.


(* ------------------------------------------------------------------------ *)
(** ** Totality *)
(* ------------------------------------------------------------------------ *)

(** C9: each core operation returns on every input of its type: [length]
    a number (-1 for an absent input), the emptiness predicates and
    [equalsBy] a boolean, also on absent and empty collections, and the
    index helpers an array for every index, in or out of range. *)
Theorem core_operations_total :
  (∀ (T : Type) (c : Collection T), ∃ n : Z, _length c = Normal (Some n)) ∧
  (∀ (T : Type) (cs : list (Collection T)),
     returns (_isEmpty cs) ∧ returns (_isNotEmpty cs) ∧ returns (_hasValues cs)) ∧
  (∀ (T V : Type) (strict_equals : V → V → bool) (selector : T → V)
     (a b : Collection T),
     returns (_equalsBy strict_equals selector a b)) ∧
  (∀ (T : Type) (h : list (list T)) (source : Ref) (index : Z),
     is_Some (h !! source) → returns (_removeElementAt source index h)) ∧
  (∀ (T : Type) (h : list (list T)) (source : Ref) (index : Z) (value : T),
     is_Some (h !! source) → returns (_replaceElementAt source index value h)).
Proof.
  split; [|split; [|split; [|split]]].
  - intros T c. destruct c; simpl; eauto.
  - intros T cs. unfold returns, _isNotEmpty, _hasValues.
    rewrite hasValues_loop, isEmpty_forallb. simpl. repeat split; eauto.
  - intros T V strict_equals selector a b. unfold returns.
    destruct (eq_null a) eqn:Ha; [|destruct (eq_null b) eqn:Hb].
    + unfold _equalsBy. rewrite Ha. eauto.
    + unfold _equalsBy. rewrite Ha, Hb. eauto.
    + rewrite equalsBy_present by done. eauto.
  - intros T h source index [l Hs]. unfold returns.
    destruct (decide (0 ≤ index ≤ Z.of_nat (length l))) as [Hi|Hi].
    + destruct (removeElementAt_in_range h source l index Hs Hi) as [removed ->].
      eauto.
    + rewrite (removeElementAt_out_of_range h source l index Hs) by lia. eauto.
  - intros T h source index value [l Hs]. unfold returns.
    destruct (decide (l = [] ∨ index < 0)) as [Hg|Hg].
    { rewrite (replaceElementAt_guard h source l index value Hs Hg). eauto. }
    assert (l ≠ [] ∧ 0 ≤ index) as [Hl Hi].
    { split; [tauto|]. destruct (Z.lt_ge_cases index 0); [tauto|done]. }
    destruct (decide (length l = 1%nat)) as [H1|H1].
    { rewrite (replaceElementAt_single h source l index value) by done. eauto. }
    assert (2 ≤ length l)%nat.
    { destruct l as [|x [|y l]]; simpl in *; [done|done|lia]. }
    destruct (decide (index = Z.of_nat (length l) - 1)) as [Hlast|Hlast].
    + rewrite (replaceElementAt_last h source l index value) by done. eauto.
    + rewrite (replaceElementAt_general h source l index value) by done. eauto.
Qed.

(* ------------------------------------------------------------------------ *)
(** ** The statements at concrete inputs *)
(* ------------------------------------------------------------------------ *)

Lemma equalsBy_case_analysis_witness :
  _equalsBy Z.eqb id Undefined Null = Normal true ∧
  _equalsBy Z.eqb id (PlainArray [1]) Undefined = Normal false ∧
  _equalsBy Z.eqb id (PlainArray [1]) (ImmutableList []) = Normal false ∧
  ∃ b : bool,
    _equalsBy Z.eqb id (PlainArray [1; 2]) (ImmutableList [2; 1]) = Normal b ∧
    (b = true ↔ contained Z.eqb id [1; 2] [2; 1] ∧ contained Z.eqb id [2; 1] [1; 2]).
Proof.
  split; [|split; [|split]].
  - destruct (equalsBy_case_analysis Z.eqb id Undefined Null) as (H & _).
    exact (H eq_refl).
  - destruct (equalsBy_case_analysis Z.eqb id (PlainArray [1]) Undefined)
      as (_ & H & _).
    exact (H eq_refl eq_refl).
  - destruct (equalsBy_case_analysis Z.eqb id (PlainArray [1]) (ImmutableList []))
      as (_ & _ & H & _).
    apply H; [reflexivity|reflexivity|]. vm_compute. discriminate.
  - destruct (equalsBy_case_analysis Z.eqb id (PlainArray [1; 2]) (ImmutableList [2; 1]))
      as (_ & _ & _ & H).
    exact (H eq_refl eq_refl eq_refl).
Defined.

Lemma equalsBy_containment_order_independent_witness :
  _equalsBy Z.eqb id (PlainArray [1; 2; 3]) (ImmutableList [3; 1; 2])
  = _equalsBy Z.eqb id (PlainArray [3; 2; 1]) (ImmutableList [1; 3; 2]) ∧
  ∃ r : bool,
    _equalsBy Z.eqb id (PlainArray [1; 2; 4]) (ImmutableList [1; 2; 2]) = Normal r ∧
    (r = true ↔
       length [1; 2; 4] = length [1; 2; 2] ∧
       contained Z.eqb id [1; 2; 4] [1; 2; 2] ∧ contained Z.eqb id [1; 2; 2] [1; 2; 4]).
Proof.
  destruct equalsBy_containment_order_independent as (_ & _ & _ & Hperm & Hcont & _).
  split.
  - apply Hperm.
    + apply permuted_array. apply (Permutation_rev [1; 2; 3]).
    + apply permuted_list. apply perm_swap.
  - exact (Hcont Z Z Z.eqb id (PlainArray [1; 2; 4]) (ImmutableList [1; 2; 2])
             eq_refl eq_refl).
Defined.

Lemma isEmpty_iff_all_blank_witness :
  _isEmpty [Undefined; PlainArray []; @ImmutableList Z []] = Normal true ∧
  _isEmpty [Undefined; PlainArray []; ImmutableList [7]] = Normal false.
Proof.
  split.
  - destruct (isEmpty_iff_all_blank [Undefined; PlainArray []; @ImmutableList Z []])
      as ((_ & H) & _).
    apply H. constructor; [left; reflexivity|].
    constructor; [right; reflexivity|].
    constructor; [right; reflexivity|]. constructor.
  - destruct (isEmpty_iff_all_blank [Undefined; PlainArray []; ImmutableList [7]])
      as (_ & (_ & H) & _).
    apply H. do 2 apply Exists_cons_tl. apply Exists_cons_hd.
    split; [reflexivity|discriminate].
Defined.

Lemma removeElementAt_spec_witness :
  _removeElementAt 0%nat (-1) [[1; 2; 3]] = Normal (0%nat, [[1; 2; 3]]) ∧
  _removeElementAt 0%nat 4 [[1; 2; 3]] = Normal (0%nat, [[1; 2; 3]]) ∧
  (∃ r h', _removeElementAt 0%nat 3 [[1; 2; 3]] = Normal (r, h') ∧
     r ≠ 0%nat ∧ h' !! r = Some [1; 2; 3] ∧ h' !! 0%nat = Some [1; 2; 3]) ∧
  (∃ r h', _removeElementAt 0%nat 1 [[1; 2; 3]] = Normal (r, h') ∧
     r ≠ 0%nat ∧ h' !! r = Some [1; 3] ∧ h' !! 0%nat = Some [1; 2; 3]).
Proof.
  split; [|split; [|split]].
  - destruct (removeElementAt_spec [[1; 2; 3]] 0%nat [1; 2; 3] (-1) eq_refl)
      as (H & _).
    apply H. left. reflexivity.
  - destruct (removeElementAt_spec [[1; 2; 3]] 0%nat [1; 2; 3] 4 eq_refl)
      as (H & _).
    apply H. right. reflexivity.
  - destruct (removeElementAt_spec [[1; 2; 3]] 0%nat [1; 2; 3] 3 eq_refl)
      as (_ & H & _).
    destruct (H eq_refl) as (r & h' & Hrun & Hf & Hr & _ & Hs).
    exists r, h'. repeat split; try assumption.
    intros ->. discriminate Hf.
  - destruct (removeElementAt_spec [[1; 2; 3]] 0%nat [1; 2; 3] 1 eq_refl)
      as (_ & _ & H).
    destruct H as (r & h' & Hrun & Hf & Hr & _ & _ & Hs); [split; [discriminate|reflexivity]|].
    exists r, h'. repeat split; try assumption.
    intros ->. discriminate Hf.
Defined.

Lemma replaceElementAt_spec_witness :
  _replaceElementAt 0%nat 0 9 [[]] = Normal (0%nat, [[]]) ∧
  _replaceElementAt 0%nat (-2) 9 [[1; 2; 3]] = Normal (0%nat, [[1; 2; 3]]) ∧
  (∃ r h', _replaceElementAt 0%nat 5 9 [[1]] = Normal (r, h') ∧
     h' !! r = Some [9] ∧ h' !! 0%nat = Some [1]) ∧
  (∃ r h', _replaceElementAt 0%nat 2 9 [[1; 2; 3]] = Normal (r, h') ∧
     h' !! r = Some [1; 2; 9] ∧ h' !! 0%nat = Some [1; 2; 3]) ∧
  (∃ r h', _replaceElementAt 0%nat 1 9 [[1; 2; 3]] = Normal (r, h') ∧
     h' !! r = Some [1; 9; 3] ∧ h' !! 0%nat = Some [1; 2; 3]).
Proof.
  split; [|split; [|split; [|split]]].
  - destruct (replaceElementAt_spec [[]] 0%nat [] 0 9 eq_refl) as (H & _).
    apply H. left. reflexivity.
  - destruct (replaceElementAt_spec [[1; 2; 3]] 0%nat [1; 2; 3] (-2) 9 eq_refl)
      as (H & _).
    apply H. right. reflexivity.
  - destruct (replaceElementAt_spec [[1]] 0%nat [1] 5 9 eq_refl) as (_ & H & _).
    destruct H as (r & h' & Hrun & _ & Hr & _ & Hs); [reflexivity|discriminate|].
    exists r, h'. repeat split; assumption.
  - destruct (replaceElementAt_spec [[1; 2; 3]] 0%nat [1; 2; 3] 2 9 eq_refl)
      as (_ & _ & H & _).
    destruct H as (r & h' & Hrun & _ & Hr & _ & Hs); [simpl; lia|reflexivity|].
    exists r, h'. repeat split; assumption.
  - destruct (replaceElementAt_spec [[1; 2; 3]] 0%nat [1; 2; 3] 1 9 eq_refl)
      as (_ & _ & _ & H).
    destruct H as (r & h' & Hrun & _ & Hr & _ & Hs);
      [simpl; lia|discriminate|discriminate|].
    exists r, h'. repeat split; assumption.
Defined.

Lemma replaceElementAt_beyond_end_appends_witness :
  ∃ r h', _replaceElementAt 0%nat 5 9 [[1; 2; 3]] = Normal (r, h') ∧
    r ≠ 0%nat ∧ h' !! r = Some [1; 2; 3; 9] ∧ h' !! 0%nat = Some [1; 2; 3].
Proof.
  destruct (replaceElementAt_beyond_end_appends [[1; 2; 3]] 0%nat [1; 2; 3] 5 9 eq_refl)
    as (r & h' & Hrun & Hne & _ & Hr & _ & _ & _ & Hs);
    [simpl; lia|discriminate|].
  exists r, h'. repeat split; assumption.
Defined.


Lemma core_operations_total_witness :
  returns (_removeElementAt 0%nat 7 [[1; 2; 3]]) ∧
  returns (_replaceElementAt 0%nat 7 9 [[1; 2; 3]]).
Proof.
  destruct core_operations_total as (_ & _ & _ & Hrem & Hrep). split.
  - apply Hrem. exists [1; 2; 3]. reflexivity.
  - apply Hrep. exists [1; 2; 3]. reflexivity.
Defined.

(* ------------------------------------------------------------------------ *)
(** ** Further properties of equalsBy *)
(* ------------------------------------------------------------------------ *)

Section EqualsByAlgebra.
Context {T V : Type}.
Variable strict_equals : V → V → bool.
Variable selector : T → V.
Implicit Types (a b c : Collection T).
Local Abbreviation within := (contained strict_equals selector).

Lemma equalsBy_absent_l a b :
  eq_null a = true → _equalsBy strict_equals selector a b = Normal (eq_null b).
Proof. intros Ha. unfold _equalsBy. by rewrite Ha. Qed.

Lemma equalsBy_absent_r a b :
  eq_null a = false → eq_null b = true →
  _equalsBy strict_equals selector a b = Normal false.
Proof. intros Ha Hb. unfold _equalsBy. by rewrite Ha, Hb. Qed.

(** What a [true] result says about two present collections. *)
Lemma equalsBy_present_true a b :
  eq_null a = false → eq_null b = false →
  _equalsBy strict_equals selector a b = Normal true ↔
    length (elements a) = length (elements b) ∧
    within (elements a) (elements b) ∧ within (elements b) (elements a).
Proof.
  intros Ha Hb. rewrite equalsBy_present by done. case_bool_decide as Hlen.
  - rewrite <- !differs_false. split.
    + intros [= H]. apply negb_true_iff, orb_false_iff in H. tauto.
    + intros (_ & H1 & H2). by rewrite H1, H2.
  - split; [discriminate|tauto].
Qed.

(** X1: [equalsBy] does not depend on the order of its two collections,
    whatever the relation [===] is. *)
Theorem equalsBy_symmetric a b :
  _equalsBy strict_equals selector a b = _equalsBy strict_equals selector b a.
Proof.
  destruct (eq_null a) eqn:Ha, (eq_null b) eqn:Hb.
  - rewrite !equalsBy_absent_l by done. congruence.
  - rewrite (equalsBy_absent_l a b), (equalsBy_absent_r b a) by done. congruence.
  - rewrite (equalsBy_absent_l b a), (equalsBy_absent_r a b) by done. congruence.
  - rewrite !equalsBy_present by done. f_equal.
    rewrite (orb_comm (differs _ _ (elements b) (elements a))).
    by repeat case_bool_decide.
Qed.

(** X2: a collection equals itself when every projected value is [===] to
    itself; a one-element array whose projected value is not [===] to
    itself (as [NaN]) does not equal itself. *)
Theorem equalsBy_reflexive_iff_values_are c :
  (Forall (fun x => strict_equals (selector x) (selector x) = true) (elements c) →
     _equalsBy strict_equals selector c c = Normal true) ∧
  (∀ x : T, strict_equals (selector x) (selector x) = false →
     _equalsBy strict_equals selector (PlainArray [x]) (PlainArray [x]) = Normal false).
Proof.
  split.
  - intros Hrefl. destruct (eq_null c) eqn:Hc.
    + rewrite equalsBy_absent_l by done. congruence.
    + apply equalsBy_present_true; [done..|].
      assert (Hcont : within (elements c) (elements c)).
      { apply Forall_forall. intros x Hx. apply Exists_exists.
        exists x. split; [done|]. by apply (proj1 (Forall_forall _ _) Hrefl). }
      done.
  - intros x Hx. rewrite equalsBy_present by done. simpl. by rewrite Hx.
Qed.

(** X3: the result depends on each argument only through whether it is
    absent and which elements it holds: an array and an [Immutable.List]
    of the same elements, or [undefined] and [null], are interchangeable. *)
Theorem equalsBy_representation_independent a a' b b' :
  eq_null a = eq_null a' → elements a = elements a' →
  eq_null b = eq_null b' → elements b = elements b' →
  _equalsBy strict_equals selector a b = _equalsBy strict_equals selector a' b'.
Proof.
  intros Ha Hla Hb Hlb.
  destruct (eq_null a) eqn:Ea, (eq_null b) eqn:Eb.
  - rewrite !equalsBy_absent_l by done. congruence.
  - rewrite !equalsBy_absent_l by done. congruence.
  - by rewrite !equalsBy_absent_r.
  - rewrite !equalsBy_present by done. by rewrite Hla, Hlb.
Qed.

(** X5: [equalsBy] returns [true] only for two absent collections or for two
    present collections with the same number of elements; an empty
    collection is never equal to an absent one. *)
Theorem equalsBy_true_same_shape a b :
  _equalsBy strict_equals selector a b = Normal true →
  eq_null a = eq_null b ∧ length (elements a) = length (elements b).
Proof.
  intros H. destruct (eq_null a) eqn:Ha, (eq_null b) eqn:Hb.
  - split; [done|]. by destruct a, b.
  - rewrite equalsBy_absent_l in H by done. rewrite Hb in H. discriminate H.
  - rewrite equalsBy_absent_r in H by done. discriminate H.
  - apply equalsBy_present_true in H; [|done..]. tauto.
Qed.

(** X7: when [===] is transitive on the projected values, so is
    [equalsBy]. *)
Theorem equalsBy_transitive a b c :
  (∀ u v w : V, strict_equals u v = true → strict_equals v w = true →
                strict_equals u w = true) →
  _equalsBy strict_equals selector a b = Normal true →
  _equalsBy strict_equals selector b c = Normal true →
  _equalsBy strict_equals selector a c = Normal true.
Proof.
  intros Htrans Hab Hbc.
  assert (Hchain : ∀ l1 l2 l3 : list T,
            within l1 l2 → within l2 l3 → within l1 l3).
  { intros l1 l2 l3 H12 H23. unfold contained in *.
    rewrite Forall_forall in *. intros x Hx.
    destruct (proj1 (Exists_exists _ _) (H12 x Hx)) as (y & Hy & Hxy).
    destruct (proj1 (Exists_exists _ _) (H23 y Hy)) as (z & Hz & Hyz).
    apply Exists_exists. exists z. split; [done|]. by eapply Htrans. }
  destruct (eq_null a) eqn:Ha, (eq_null b) eqn:Hb, (eq_null c) eqn:Hc;
    rewrite ?equalsBy_absent_l, ?equalsBy_absent_r, ?Hb, ?Hc in * by done;
    try done.
  apply equalsBy_present_true in Hab as (Hl1 & H12 & H21); [|done..].
  apply equalsBy_present_true in Hbc as (Hl2 & H23 & H32); [|done..].
  apply equalsBy_present_true; [done..|].
  split; [congruence|]. split; by eapply Hchain.
Qed.

(** X6: when [===] is equality and the projected values of the first
    collection are pairwise different, [equalsBy] is equality of the
    projected values up to order: containment and multiset equality
    coincide. *)
Theorem equalsBy_nodup_permutation a b :
  (∀ v w : V, strict_equals v w = true ↔ v = w) →
  eq_null a = false → eq_null b = false →
  NoDup (selector <$> elements a) →
  _equalsBy strict_equals selector a b = Normal true
  ↔ selector <$> elements a ≡ₚ selector <$> elements b.
Proof.
  intros Heq Ha Hb Hnd. rewrite equalsBy_present_true by done.
  assert (Hsub : ∀ l1 l2 : list T,
            within l1 l2 ↔ ∀ v, v ∈ selector <$> l1 → v ∈ selector <$> l2).
  { intros l1 l2. unfold contained. rewrite Forall_forall. split.
    - intros H v (x & -> & Hx)%list_elem_of_fmap.
      destruct (proj1 (Exists_exists _ _) (H x Hx)) as (y & Hy & Hxy).
      apply Heq in Hxy as ->. by apply list_elem_of_fmap_2.
    - intros H x Hx. apply Exists_exists.
      destruct (proj1 (list_elem_of_fmap _ _ _)
                  (H _ (list_elem_of_fmap_2 selector _ _ Hx))) as (y & Hxy & Hy).
      exists y. split; [done|]. by apply Heq. }
  rewrite !Hsub. split.
  - intros (Hlen & H12 & _). apply submseteq_length_Permutation.
    + by apply NoDup_submseteq.
    + rewrite !length_fmap. lia.
  - intros Hperm. split; [|split].
    + apply Permutation_length in Hperm. by rewrite !length_fmap in Hperm.
    + intros v Hv. by rewrite <- Hperm.
    + intros v Hv. by rewrite Hperm.
Qed.
End EqualsByAlgebra.

(** X4: comparing by a selector is comparing the projected values
    themselves: [equalsBy(selector, a, b)] is [equalsBy] with the identity
    selector on the two collections of projected values. *)
Theorem equalsBy_on_projected_values {T V : Type} (strict_equals : V → V → bool)
    (selector : T → V) (a b : Collection T) :
  _equalsBy strict_equals selector a b
  = _equalsBy strict_equals id (map_elements selector a) (map_elements selector b).
Proof.
  assert (Hmap : ∀ (p : V → bool) (l : list T),
            existsb p (selector <$> l) = existsb (fun x => p (selector x)) l).
  { intros p l. induction l as [|x l IH]; [done|].
    rewrite fmap_cons. cbn [existsb]. by rewrite IH. }
  assert (Hd : ∀ l1 l2 : list T,
            differs strict_equals selector l1 l2
            = differs strict_equals id (selector <$> l1) (selector <$> l2)).
  { intros l1 l2. unfold differs. rewrite Hmap.
    induction l1 as [|x l1 IH]; [done|]. cbn [existsb]. by rewrite IH, Hmap. }
  destruct a as [| |la|la], b as [| |lb|lb]; try reflexivity;
    rewrite !equalsBy_present by done; simpl;
    by rewrite !length_fmap, !Hd.
Qed.

(* ------------------------------------------------------------------------ *)
(** ** Further properties of the emptiness predicates *)
(* ------------------------------------------------------------------------ *)

Section EmptinessAlgebra.
Context {T : Type}.
Implicit Types (c : Collection T) (cs xs ys : list (Collection T)).

Lemma hasValues_forallb cs : _hasValues cs = Normal (negb (forallb blank cs)).
Proof. unfold _hasValues. by rewrite hasValues_loop. Qed.

(** X8: the arguments are examined one by one: checking two argument lists
    in one call is the conjunction of [isEmpty] on each, and the
    disjunction of [hasValues] on each. *)
Theorem isEmpty_concatenated_arguments xs ys :
  ∃ ex ey : bool,
    _isEmpty xs = Normal ex ∧ _isEmpty ys = Normal ey ∧
    _isEmpty (xs ++ ys) = Normal (ex && ey) ∧
    _hasValues xs = Normal (negb ex) ∧ _hasValues ys = Normal (negb ey) ∧
    _hasValues (xs ++ ys) = Normal (negb ex || negb ey).
Proof.
  exists (forallb blank xs), (forallb blank ys).
  rewrite !isEmpty_forallb, !hasValues_forallb, forallb_app, negb_andb.
  by repeat split.
Qed.

(** X9: [isEmpty] and [length] agree on one collection: [length] returns a
    number that is at least -1, it is -1 exactly for an absent collection,
    [isEmpty] holds exactly when it is -1 or 0, and [hasValues] exactly
    when it is positive. *)
Theorem isEmpty_iff_length_not_positive c :
  ∃ n : Z,
    _length c = Normal (Some n) ∧ -1 ≤ n ∧
    (n = -1 ↔ eq_null c = true) ∧
    (_isEmpty [c] = Normal true ↔ n ≤ 0) ∧
    (_hasValues [c] = Normal true ↔ 0 < n).
Proof.
  rewrite isEmpty_forallb, hasValues_forallb.
  destruct c as [| |[|x l]|[|x l]]; eexists; (split; [reflexivity|]);
    cbn [forallb blank eq_null elements orb andb negb length];
    rewrite ?bool_decide_eq_true_2, ?bool_decide_eq_false_2 by done;
    cbn [negb andb]; repeat split; try done; try lia; try discriminate.
Qed.

(** X10: the order of the arguments does not matter. *)
Theorem isEmpty_argument_order_irrelevant cs cs' :
  cs ≡ₚ cs' →
  _isEmpty cs = _isEmpty cs' ∧ _isNotEmpty cs = _isNotEmpty cs' ∧
  _hasValues cs = _hasValues cs'.
Proof.
  intros Hperm.
  assert (Hall : forallb blank cs = forallb blank cs').
  { induction Hperm as [|c l l' _ IH|c c' l|l l' l'' _ IH1 _ IH2]; simpl.
    - done.
    - by rewrite IH.
    - by destruct (blank c), (blank c').
    - congruence. }
  unfold _isNotEmpty. by rewrite !isEmpty_forallb, !hasValues_forallb, Hall.
Qed.
End EmptinessAlgebra.

(* ------------------------------------------------------------------------ *)
(** ** How the index helpers compose *)
(* ------------------------------------------------------------------------ *)

Section ArrayComposition.
Context {T : Type}.
Implicit Types (h : list (list T)) (l : list T) (r source : Ref).

Lemma removeElementAt_in_range_post h source l (index : Z) :
  h !! source = Some l → 0 ≤ index ≤ Z.of_nat (length l) →
  ∃ r h', _removeElementAt source index h = Normal (r, h') ∧
    fresh h r ∧ h' !! r = Some (delete (Z.to_nat index) l) ∧ preserved h h'.
Proof.
  intros Hs Hi.
  destruct (removeElementAt_in_range h source l index Hs Hi) as [removed ->].
  eexists _, _. split; [reflexivity|]. split; [apply fresh_length|]. split.
  - apply lookup_app_l_Some, list_lookup_insert_eq.
    rewrite length_app. simpl. lia.
  - eapply preserved_trans; [|apply preserved_alloc].
    apply preserved_update_new; [apply preserved_alloc|apply fresh_length].
Qed.

(** On two or more elements every non-negative index takes the spread
    branches: the elements before [index], [value], the elements after. *)
Lemma replaceElementAt_spread_post h source l (index : Z) (value : T) :
  h !! source = Some l → (2 ≤ length l)%nat → 0 ≤ index →
  ∃ r h', _replaceElementAt source index value h = Normal (r, h') ∧
    fresh h r ∧
    h' !! r = Some (take (Z.to_nat index) l ++ value :: drop (S (Z.to_nat index)) l) ∧
    preserved h h'.
Proof.
  intros Hs Hlen Hi.
  destruct (decide (index = Z.of_nat (length l) - 1)) as [Hlast|Hlast].
  - rewrite (replaceElementAt_last h source l index value) by done.
    rewrite (drop_ge l (S (Z.to_nat index))) by lia.
    destruct (allocated_on_top h [take (Z.to_nat index) l]
                (take (Z.to_nat index) l ++ [value]) (S (length h)))
      as (Hf & Hr & Hp); [simpl; lia|].
    eexists _, _. by split; [reflexivity|].
  - rewrite (replaceElementAt_general h source l index value) by done.
    replace (Z.to_nat (index + 1)) with (S (Z.to_nat index)) by lia.
    destruct (allocated_on_top h
                [take (Z.to_nat index) l; drop (S (Z.to_nat index)) l]
                (take (Z.to_nat index) l ++ [value] ++ drop (S (Z.to_nat index)) l)
                (S (S (length h))))
      as (Hf & Hr & Hp); [simpl; lia|].
    eexists _, _. by split; [reflexivity|].
Qed.

Lemma replaceElementAt_update_post h source l (index : Z) (value : T) :
  h !! source = Some l → 0 ≤ index < Z.of_nat (length l) →
  ∃ r h', _replaceElementAt source index value h = Normal (r, h') ∧
    fresh h r ∧ h' !! r = Some (<[Z.to_nat index := value]> l) ∧ preserved h h'.
Proof.
  intros Hs Hi. destruct (decide (length l = 1%nat)) as [H1|H1].
  - rewrite (replaceElementAt_single h source l index value) by (done || lia).
    destruct l as [|x [|y l]]; try discriminate H1.
    replace (Z.to_nat index) with 0%nat by (simpl in Hi; lia).
    destruct (allocated_on_top h [] [value] (length h)) as (Hf & Hr & Hp);
      [simpl; lia|].
    eexists _, _. by split; [reflexivity|].
  - destruct (replaceElementAt_spread_post h source l index value)
      as (r & h' & Hrun & Hf & Hr & Hp); [done|lia|lia|].
    exists r, h'. rewrite insert_take_drop by lia. done.
Qed.

(** X11: for an index inside the array [replaceElementAt] is the list
    update: a new array of the same length whose element at [index] is
    [value] and whose other elements are those of [source]. *)
Theorem replaceElementAt_in_range_is_update h source l (index : Z) (value : T) :
  h !! source = Some l → 0 ≤ index < Z.of_nat (length l) →
  ∃ r h' l', _replaceElementAt source index value h = Normal (r, h') ∧
    fresh h r ∧ h' !! r = Some l' ∧ h' !! source = Some l ∧
    l' = <[Z.to_nat index := value]> l ∧
    length l' = length l ∧
    l' !! Z.to_nat index = Some value ∧
    (∀ i, i ≠ Z.to_nat index → l' !! i = l !! i).
Proof.
  intros Hs Hi.
  destruct (replaceElementAt_update_post h source l index value Hs Hi)
    as (r & h' & Hrun & Hf & Hr & Hp).
  exists r, h', (<[Z.to_nat index := value]> l).
  split; [done|]. split; [done|]. split; [done|]. split; [by apply Hp|].
  split; [done|]. split; [apply length_insert|]. split.
  - apply list_lookup_insert_eq. lia.
  - intros i Hne. by apply list_lookup_insert_ne.
Qed.

(** X12: replacing twice at the same index inside the array keeps only the
    second value; the array from the first call is not changed by the
    second. *)
Theorem replaceElementAt_twice h source l (index : Z) (v w : T) :
  h !! source = Some l → 0 ≤ index < Z.of_nat (length l) →
  ∃ r1 h1 r2 h2,
    _replaceElementAt source index v h = Normal (r1, h1) ∧
    _replaceElementAt r1 index w h1 = Normal (r2, h2) ∧
    (r ← _replaceElementAt source index v; _replaceElementAt r index w) h
      = Normal (r2, h2) ∧
    h2 !! r2 = Some (<[Z.to_nat index := w]> l) ∧
    h2 !! r1 = Some (<[Z.to_nat index := v]> l) ∧
    h2 !! source = Some l.
Proof.
  intros Hs Hi.
  destruct (replaceElementAt_update_post h source l index v Hs Hi)
    as (r1 & h1 & Hrun1 & Hf1 & Hr1 & Hp1).
  destruct (replaceElementAt_update_post h1 r1 _ index w Hr1)
    as (r2 & h2 & Hrun2 & Hf2 & Hr2 & Hp2); [by rewrite length_insert|].
  exists r1, h1, r2, h2. split; [done|]. split; [done|]. split.
  - by rewrite (exec_bind_normal _ _ _ _ _ Hrun1).
  - rewrite list_insert_insert_eq in Hr2. split; [done|].
    split; [by apply Hp2|by apply Hp2, Hp1].
Qed.

(** X13: on an array of two or more elements, removing at the index that
    was just written gives the elements of [source] without the one at
    [index]; at [index = length], where the write appended, it gives the
    elements of [source] back. *)
Theorem removeElementAt_after_replaceElementAt h source l (index : Z) (value : T) :
  h !! source = Some l → (2 ≤ length l)%nat → 0 ≤ index ≤ Z.of_nat (length l) →
  ∃ r h',
    (r1 ← _replaceElementAt source index value; _removeElementAt r1 index) h
      = Normal (r, h') ∧
    fresh h r ∧ h' !! source = Some l ∧
    h' !! r = Some (delete (Z.to_nat index) l) ∧
    (index = Z.of_nat (length l) → h' !! r = Some l).
Proof.
  intros Hs Hlen Hi.
  destruct (replaceElementAt_spread_post h source l index value)
    as (r1 & h1 & Hrun1 & Hf1 & Hr1 & Hp1); [done|done|lia|].
  assert (Htake : length (take (Z.to_nat index) l) = Z.to_nat index).
  { rewrite length_take. lia. }
  destruct (removeElementAt_in_range_post h1 r1 _ index Hr1)
    as (r & h' & Hrun & Hf & Hr & Hp).
  { rewrite length_app, Htake. simpl. lia. }
  assert (Hdel : delete (Z.to_nat index)
                   (take (Z.to_nat index) l ++ value :: drop (S (Z.to_nat index)) l)
                 = delete (Z.to_nat index) l).
  { rewrite <- Htake at 1. by rewrite delete_middle, delete_take_drop. }
  rewrite Hdel in Hr. exists r, h'. split.
  { by rewrite (exec_bind_normal _ _ _ _ _ Hrun1). }
  split; [|split; [by apply Hp, Hp1|split; [done|]]].
  - unfold fresh in *. destruct (h !! r) as [l0|] eqn:E; [|done].
    apply Hp1 in E. congruence.
  - intros ->. by rewrite Nat2Z.id, delete_at_length in Hr.
Qed.
End ArrayComposition.

(* ------------------------------------------------------------------------ *)
(** ** The comparator of sortByString as an ordering *)
(* ------------------------------------------------------------------------ *)

Section ComparatorOrdering.
Context {T : Type}.
Variable toLowerCase : JsString → JsString.
Hypothesis lower_case : lower_case_contract toLowerCase.
Variable selector : T → option JsString.
Variable caseSensitive : bool.
Implicit Types (a b : T).

(** X14: on two elements with a key the comparator is a consistent
    ordering of the keys (swapping the arguments negates the result, 0
    means equal keys, -1 means a smaller key); two elements without a key
    each compare after the other, also an element with itself. *)
Theorem compareByString_ordering a b :
  (empty_or_null (selector a) = false → empty_or_null (selector b) = false →
     compareByString toLowerCase selector caseSensitive a b
       = - compareByString toLowerCase selector caseSensitive b a ∧
     (compareByString toLowerCase selector caseSensitive a b = 0
        ↔ sort_key toLowerCase selector caseSensitive a
          = sort_key toLowerCase selector caseSensitive b) ∧
     (compareByString toLowerCase selector caseSensitive a b = -1
        ↔ string_lt (sort_key toLowerCase selector caseSensitive a)
                    (sort_key toLowerCase selector caseSensitive b) = true) ∧
     (compareByString toLowerCase selector caseSensitive a b = 1
        ↔ string_lt (sort_key toLowerCase selector caseSensitive b)
                    (sort_key toLowerCase selector caseSensitive a) = true)) ∧
  (empty_or_null (selector a) = true → empty_or_null (selector b) = true →
     compareByString toLowerCase selector caseSensitive a b = 1 ∧
     compareByString toLowerCase selector caseSensitive b a = 1 ∧
     compareByString toLowerCase selector caseSensitive a a = 1).
Proof.
  split.
  - intros Ha Hb.
    destruct (keyed_some toLowerCase lower_case selector caseSensitive a Ha) as [sa Ka].
    destruct (keyed_some toLowerCase lower_case selector caseSensitive b Hb) as [sb Kb].
    rewrite (compare_keyed toLowerCase lower_case selector caseSensitive a b sa sb),
      (compare_keyed toLowerCase lower_case selector caseSensitive b a sb sa) by done.
    rewrite Ka, Kb. simpl. rewrite (units_eqb_sym sb sa).
    destruct (units_eqb sa sb) eqn:E.
    + apply units_eqb_eq in E as ->. rewrite units_ltb_irrefl. by repeat split.
    + assert (Hne : sa ≠ sb).
      { intros ->. by rewrite units_eqb_refl in E. }
      destruct (units_ltb sa sb) eqn:Hlt.
      * rewrite (units_ltb_asym _ _ Hlt). repeat split; try done; congruence.
      * rewrite (units_ltb_connected _ _ Hlt Hne).
        repeat split; try done; congruence.
  - intros Ha Hb. by rewrite !compare_empty_left.
Qed.
End ComparatorOrdering.

(* ------------------------------------------------------------------------ *)
(** ** sortByString on the store *)
(* ------------------------------------------------------------------------ *)

Section SortOnStore.
Context {T : Type}.
Variable toLowerCase : JsString → JsString.
Variable selector : T → option JsString.
Implicit Types (h : list (list T)) (l : list T) (array source : Ref).


End SortOnStore.

(* ------------------------------------------------------------------------ *)
(** ** The further statements at concrete inputs *)
(* ------------------------------------------------------------------------ *)

Lemma equalsBy_reflexive_iff_values_are_witness :
  _equalsBy Z.eqb id (ImmutableList [3; 3; 4]) (ImmutableList [3; 3; 4]) = Normal true ∧
  _equalsBy (fun _ _ : Z => false) id (PlainArray [3]) (PlainArray [3]) = Normal false.
Proof.
  split.
  - apply (equalsBy_reflexive_iff_values_are Z.eqb id (ImmutableList [3; 3; 4])).
    repeat constructor.
  - by apply (equalsBy_reflexive_iff_values_are (fun _ _ : Z => false) id (PlainArray [3])).
Defined.

Lemma equalsBy_representation_independent_witness :
  _equalsBy Z.eqb id (PlainArray [1; 2]) Undefined
  = _equalsBy Z.eqb id (ImmutableList [1; 2]) Null ∧
  _equalsBy Z.eqb id (PlainArray [1; 2]) (PlainArray [2; 1])
  = _equalsBy Z.eqb id (ImmutableList [1; 2]) (PlainArray [2; 1]).
Proof.
  split; by apply equalsBy_representation_independent.
Defined.

Lemma equalsBy_true_same_shape_witness :
  eq_null (PlainArray [1; 1; 2]) = eq_null (ImmutableList [1; 2; 2]) ∧
  length (elements (PlainArray [1; 1; 2])) = length (elements (ImmutableList [1; 2; 2])).
Proof.
  by apply (equalsBy_true_same_shape Z.eqb id).
Defined.

Lemma equalsBy_transitive_witness :
  _equalsBy Z.eqb id (PlainArray [1; 1; 2]) (PlainArray [2; 2; 1]) = Normal true.
Proof.
  apply (equalsBy_transitive Z.eqb id _ (ImmutableList [1; 2; 2])).
  - intros u v w Huv Hvw. apply Z.eqb_eq in Huv, Hvw. apply Z.eqb_eq. congruence.
  - reflexivity.
  - reflexivity.
Defined.

Lemma equalsBy_nodup_permutation_witness :
  (_equalsBy Z.eqb id (PlainArray [1; 2; 3]) (ImmutableList [3; 1; 2]) = Normal true
   ↔ id <$> [1; 2; 3] ≡ₚ id <$> [3; 1; 2]) ∧
  ¬ id <$> [1; 2; 3] ≡ₚ id <$> [1; 2; 2].
Proof.
  assert (Hnd : NoDup (id <$> [1; 2; 3])).
  { apply (bool_decide_unpack _). vm_compute. exact I. }
  split.
  - by apply (equalsBy_nodup_permutation Z.eqb id); [apply Z.eqb_eq|..].
  - intros Hperm.
    apply (equalsBy_nodup_permutation Z.eqb id (PlainArray [1; 2; 3])
             (PlainArray [1; 2; 2])) in Hperm; [|apply Z.eqb_eq|done..].
    discriminate Hperm.
Defined.

Lemma isEmpty_argument_order_irrelevant_witness :
  _isEmpty [PlainArray [1]; Undefined; ImmutableList []]
  = _isEmpty [Undefined; PlainArray [1]; ImmutableList []].
Proof.
  apply isEmpty_argument_order_irrelevant. apply perm_swap.
Defined.

Lemma replaceElementAt_in_range_is_update_witness :
  ∃ r h', _replaceElementAt 0%nat 0 9 [[1; 2; 3]] = Normal (r, h') ∧
    h' !! r = Some [9; 2; 3] ∧ h' !! 0%nat = Some [1; 2; 3].
Proof.
  destruct (replaceElementAt_in_range_is_update [[1; 2; 3]] 0%nat [1; 2; 3] 0 9 eq_refl)
    as (r & h' & l' & Hrun & _ & Hr & Hs & -> & _); [simpl; lia|].
  by exists r, h'.
Defined.

Lemma replaceElementAt_twice_witness :
  ∃ r h', (r ← _replaceElementAt 0%nat 1 8; _replaceElementAt r 1 9) [[1; 2; 3]]
          = Normal (r, h') ∧
    h' !! r = Some [1; 9; 3] ∧ h' !! 0%nat = Some [1; 2; 3].
Proof.
  destruct (replaceElementAt_twice [[1; 2; 3]] 0%nat [1; 2; 3] 1 8 9 eq_refl)
    as (r1 & h1 & r2 & h2 & _ & _ & Hrun & Hr2 & _ & Hs); [simpl; lia|].
  by exists r2, h2.
Defined.

Lemma removeElementAt_after_replaceElementAt_witness :
  (∃ r h', (r1 ← _replaceElementAt 0%nat 1 9; _removeElementAt r1 1) [[1; 2; 3]]
           = Normal (r, h') ∧ h' !! r = Some [1; 3]) ∧
  (∃ r h', (r1 ← _replaceElementAt 0%nat 3 9; _removeElementAt r1 3) [[1; 2; 3]]
           = Normal (r, h') ∧ h' !! r = Some [1; 2; 3]).
Proof.
  split.
  - destruct (removeElementAt_after_replaceElementAt [[1; 2; 3]] 0%nat [1; 2; 3] 1 9 eq_refl)
      as (r & h' & Hrun & _ & _ & Hr & _); [simpl; lia|simpl; lia|].
    by exists r, h'.
  - destruct (removeElementAt_after_replaceElementAt [[1; 2; 3]] 0%nat [1; 2; 3] 3 9 eq_refl)
      as (r & h' & Hrun & _ & _ & _ & Hr); [simpl; lia|simpl; lia|].
    exists r, h'. split; [done|]. by apply Hr.
Defined.

Lemma compareByString_ordering_witness :
  compareByString lower_ascii_string Stub.by_n false (Stub.named "b") (Stub.named "A")
  = - compareByString lower_ascii_string Stub.by_n false (Stub.named "A") (Stub.named "b") ∧
  compareByString lower_ascii_string Stub.by_n false (Stub.named "") (Stub.named "") = 1.
Proof.
  split.
  - destruct (compareByString_ordering lower_ascii_string lower_ascii_string_contract
                Stub.by_n false (Stub.named "b") (Stub.named "A")) as (H & _).
    by destruct (H eq_refl eq_refl) as (Hanti & _).
  - destruct (compareByString_ordering lower_ascii_string lower_ascii_string_contract
                Stub.by_n false (Stub.named "") (Stub.named "")) as (_ & H).
    by destruct (H eq_refl eq_refl) as (H1 & _).
Defined.


